(** * when-ts: the rule engine [StateMachine] and its [HistoryManager]

    A shallow embedding of the two classes of [src/stateMachine.ts].

    - JavaScript objects live in an explicit object store, so that two
      references to one object stay aliased: the committed records, the
      pending state, the initial state, the exit state and the objects
      that actions return are references into that store.
    - A number is an integer, [Infinity], [-Infinity] or [NaN].
    - Conditions, actions and priority functions are functions of the
      state they are given and of the machine; they return their result
      and the machine as they leave it, so that they can call [exit],
      [rewind] and the like.
    - The program map is the list of its entries in insertion order; the
      registration of the entries by decorators and [recombine] are not
      modelled.
    - [run] may loop for ever; its model takes a bound on the number of
      iterations. *)

From Stdlib Require Import ZArith Lia Sorted Permutation.
From stdpp Require Import base list gmap strings.

Local Open Scope Z_scope.

(** ** Host-language primitives *)

Module Num.

(** A JavaScript number, as far as the engine uses it: the integers and
    the three special values.  Fractions are left out: a statement about
    a limit, a rewind count or a priority is a statement about an
    integer, an infinity or NaN, and where the code treats a fraction
    otherwise (the count of [splice] is truncated) the statement says
    that it is about integers. *)
Inductive t := Fin (z : Z) | PosInf | NegInf | NaN.

Definition isFinite (n : t) : bool :=
  match n with Fin _ => true | _ => false end.

(** [a < b]; a comparison with NaN is false. *)
Definition ltb (a b : t) : bool :=
  match a, b with
  | NaN, _ | _, NaN => false
  | Fin x, Fin y => x <? y
  | NegInf, NegInf => false
  | NegInf, _ => true
  | _, NegInf => false
  | PosInf, _ => false
  | Fin _, PosInf => true
  end.

(** [a <= b]. *)
Definition leb (a b : t) : bool :=
  match a, b with
  | NaN, _ | _, NaN => false
  | Fin x, Fin y => x <=? y
  | NegInf, _ => true
  | _, NegInf => false
  | _, PosInf => true
  | PosInf, Fin _ => false
  end.

(** [a - b]. *)
Definition sub (a b : t) : t :=
  match a, b with
  | NaN, _ | _, NaN => NaN
  | Fin x, Fin y => Fin (x - y)
  | Fin _, PosInf => NegInf
  | Fin _, NegInf => PosInf
  | PosInf, PosInf => NaN
  | PosInf, _ => PosInf
  | NegInf, NegInf => NaN
  | NegInf, _ => NegInf
  end.

(** Truthiness of a number: [0] and [NaN] are falsy. *)
Definition truthy (n : t) : bool :=
  match n with Fin 0 | NaN => false | _ => true end.

(** [n || 0]. *)
Definition or_zero (n : t) : t := if truthy n then n else Fin 0.

(** ToIntegerOrInfinity of the language standard. *)
Definition toIntegerOrInfinity (n : t) : t :=
  match n with NaN => Fin 0 | _ => n end.

(** The integer held by a finite number. *)
Definition to_Z (n : t) : Z :=
  match n with Fin z => z | _ => 0 end.

Definition of_nat (n : nat) : t := Fin (Z.of_nat n).

(** [Math.min(a, b)]. *)
Definition min (a b : t) : t :=
  match a, b with
  | NaN, _ | _, NaN => NaN
  | _, _ => if ltb b a then b else a
  end.

End Num.

Module Array.

Section Splice.
Context {A : Type}.

(** Where [splice] starts, for an array of length [len]. *)
Definition actualStart (start : Num.t) (len : Z) : Z :=
  match Num.toIntegerOrInfinity start with
  | Num.NegInf => 0
  | Num.PosInf => len
  | Num.Fin r => if r <? 0 then Z.max (len + r) 0 else Z.min r len
  | Num.NaN => 0
  end.

(** How many elements [splice] removes. *)
Definition actualDeleteCount (deleteCount : Num.t) (len from : Z) : Z :=
  match Num.toIntegerOrInfinity deleteCount with
  | Num.NegInf => 0
  | Num.PosInf => len - from
  | Num.Fin d => Z.min (Z.max d 0) (len - from)
  | Num.NaN => 0
  end.

(** [l.splice(start, deleteCount)]: the array that is left. *)
Definition splice (start deleteCount : Num.t) (l : list A) : list A :=
  let len := Z.of_nat (length l) in
  let from := actualStart start len in
  let count := actualDeleteCount deleteCount len from in
  take (Z.to_nat from) l ++ drop (Z.to_nat (from + count)) l.

End Splice.

Section Sort.
Context {A : Type} (comparefn : A → A → Num.t).

(** SortCompare: does [x] go strictly before [y]?  A comparator result
    of NaN counts as [+0]. *)
Definition before (x y : A) : bool := Num.ltb (comparefn x y) (Num.Fin 0).

(** [x] is put in front of the first element that does not go
    strictly before it. *)
Fixpoint insert (x : A) (l : list A) : list A :=
  match l with
  | [] => [x]
  | y :: l' => if before y x then y :: insert x l' else x :: l
  end.

(** [l.sort(comparefn)], which the language standard requires to be
    stable (since ECMAScript 2019; the program itself adds no index to
    break ties). *)
Definition sort (l : list A) : list A := foldr insert [] l.

End Sort.

End Array.

(** ** Values, objects and the object store *)

(** Modelled from the spec: the type [MachineState] of [./index] is not
    among the sources.  A state is a mapping from field names to values;
    the values are the primitive ones. *)
Inductive Value :=
| VUndefined
| VNumber (z : Z)
| VBoolean (b : bool)
| VString (s : string).

(** An object without prototype: its own properties. *)
Abbreviation Obj := (gmap string Value).

(** A reference to an object of the store. *)
Abbreviation loc := nat (only parsing).

(** [Object.assign(target, ...sources)]: later sources win. *)
Definition Object_assign (target : Obj) (sources : list Obj) : Obj :=
  foldl (fun t s => s ∪ t) target sources.

(** Truthiness of a value that is an object or [undefined]. *)
Definition is_set (o : option loc) : bool :=
  match o with Some _ => true | None => false end.

(** Modelled from the spec: the type [InputMapping] of [./util] is not
    among the sources.  It is the input binding of the specification, with
    the three fields that the constructor and [_collectInputs] read: the
    key of the state, the property of the machine that is the source, and
    the optional transform. *)
Record InputMapping := {
  key : string;
  propertyKey : string;
  transform : option (Value → Value)
}.

(** ** The machine

    One record holds the fields of the [StateMachine] instance, the fields
    of its [HistoryManager] and the object store they point into. *)

Record Machine := {
  heap : list Obj;
  (* StateMachine *)
  _exitState : option loc;
  properties : string → Value;
  (* HistoryManager *)
  _initialState : loc;
  _inputs : list InputMapping;
  _maxHistory : Num.t;
  _inputKeys : list string;
  _records : list loc;
  _records_m1 : option loc;
  _tick : Z;
  _nextState : loc
}.

Definition set_heap (f : list Obj → list Obj) (m : Machine) : Machine :=
  {| heap := f (heap m); _exitState := _exitState m;
     properties := properties m; _initialState := _initialState m;
     _inputs := _inputs m; _maxHistory := _maxHistory m;
     _inputKeys := _inputKeys m; _records := _records m;
     _records_m1 := _records_m1 m; _tick := _tick m;
     _nextState := _nextState m |}.

Definition set_exitState (e : option loc) (m : Machine) : Machine :=
  {| heap := heap m; _exitState := e;
     properties := properties m; _initialState := _initialState m;
     _inputs := _inputs m; _maxHistory := _maxHistory m;
     _inputKeys := _inputKeys m; _records := _records m;
     _records_m1 := _records_m1 m; _tick := _tick m;
     _nextState := _nextState m |}.

Definition set_maxHistory (n : Num.t) (m : Machine) : Machine :=
  {| heap := heap m; _exitState := _exitState m;
     properties := properties m; _initialState := _initialState m;
     _inputs := _inputs m; _maxHistory := n;
     _inputKeys := _inputKeys m; _records := _records m;
     _records_m1 := _records_m1 m; _tick := _tick m;
     _nextState := _nextState m |}.

Definition set_records (f : list loc → list loc) (m : Machine) : Machine :=
  {| heap := heap m; _exitState := _exitState m;
     properties := properties m; _initialState := _initialState m;
     _inputs := _inputs m; _maxHistory := _maxHistory m;
     _inputKeys := _inputKeys m; _records := f (_records m);
     _records_m1 := _records_m1 m; _tick := _tick m;
     _nextState := _nextState m |}.

Definition set_records_m1 (l : option loc) (m : Machine) : Machine :=
  {| heap := heap m; _exitState := _exitState m;
     properties := properties m; _initialState := _initialState m;
     _inputs := _inputs m; _maxHistory := _maxHistory m;
     _inputKeys := _inputKeys m; _records := _records m;
     _records_m1 := l; _tick := _tick m;
     _nextState := _nextState m |}.

Definition set_tick (f : Z → Z) (m : Machine) : Machine :=
  {| heap := heap m; _exitState := _exitState m;
     properties := properties m; _initialState := _initialState m;
     _inputs := _inputs m; _maxHistory := _maxHistory m;
     _inputKeys := _inputKeys m; _records := _records m;
     _records_m1 := _records_m1 m; _tick := f (_tick m);
     _nextState := _nextState m |}.

Definition set_nextState (l : loc) (m : Machine) : Machine :=
  {| heap := heap m; _exitState := _exitState m;
     properties := properties m; _initialState := _initialState m;
     _inputs := _inputs m; _maxHistory := _maxHistory m;
     _inputKeys := _inputKeys m; _records := _records m;
     _records_m1 := _records_m1 m; _tick := _tick m;
     _nextState := l |}.

Definition set_initialState (l : loc) (m : Machine) : Machine :=
  {| heap := heap m; _exitState := _exitState m;
     properties := properties m; _initialState := l;
     _inputs := _inputs m; _maxHistory := _maxHistory m;
     _inputKeys := _inputKeys m; _records := _records m;
     _records_m1 := _records_m1 m; _tick := _tick m;
     _nextState := _nextState m |}.

Definition set_inputKeys (f : list string → list string) (m : Machine) : Machine :=
  {| heap := heap m; _exitState := _exitState m;
     properties := properties m; _initialState := _initialState m;
     _inputs := _inputs m; _maxHistory := _maxHistory m;
     _inputKeys := f (_inputKeys m); _records := _records m;
     _records_m1 := _records_m1 m; _tick := _tick m;
     _nextState := _nextState m |}.

(** The object a reference points to. *)
Definition deref (h : list Obj) (l : loc) : Obj := default ∅ (h !! l).

(** A new object; its reference is the next free slot of the store. *)
Definition alloc (o : Obj) (m : Machine) : loc * Machine :=
  (length (heap m), set_heap (fun h => h ++ [o]) m).

(** In-place change of the object at [l]. *)
Definition mutate_object (l : loc) (f : Obj → Obj) (m : Machine) : Machine :=
  set_heap (alter f l) m.

Module HistoryManager.

(** [records]. *)
Definition records (m : Machine) : list loc := _records m.

(** [tick]. *)
Definition tick (m : Machine) : Z := _tick m.

(** [nextState]. *)
Definition nextState (m : Machine) : loc := _nextState m.

(** [limit] (getter). *)
Definition limit (m : Machine) : Num.t := _maxHistory m.

(** [initialState]. *)
Definition initialState (m : Machine) : loc := _initialState m.

(** [this.records[this.records.length - 1]]: the last element, or, for an
    empty array, its property [-1]. *)
Definition last_record (m : Machine) : option loc :=
  match last (_records m) with
  | Some l => Some l
  | None => _records_m1 m
  end.

(** [currentState]. *)
Definition currentState (m : Machine) : loc :=
  match last_record m with
  | Some l => l
  | None => _nextState m
  end.

(** [limit] (setter). *)
Definition set_limit (limit : Num.t) (m : Machine) : Machine :=
  let limit := if Num.ltb limit (Num.Fin 1) then Num.Fin 1 else limit in
  let m :=
    if Num.ltb limit (_maxHistory m) then
      set_records
        (fun r => Array.splice (Num.Fin 0)
                    (Num.sub (Num.of_nat (length r)) limit) r) m
    else m in
  set_maxHistory limit m.

(** [_collectInputs]. *)
Definition _collectInputs (m : Machine) : Obj :=
  foldl
    (fun inputs input =>
       let value := properties m (propertyKey input) in
       <[key input :=
           match transform input with
           | Some f => f value
           | None => value
           end]> inputs)
    ∅ (_inputs m).

(** [_beginTick]. *)
Definition _beginTick (m : Machine) : Machine :=
  let latest :=
    match last_record m with
    | Some l => deref (heap m) l
    | None => ∅
    end in
  let '(l, m) := alloc (Object_assign ∅ [latest; _collectInputs m]) m in
  set_nextState l m.

(** [_mutateTick]. *)
Definition _mutateTick (p : loc) (m : Machine) : Machine :=
  let m := foldl (fun m k => mutate_object p (delete k) m) m (_inputKeys m) in
  mutate_object (_nextState m) (fun o => Object_assign o [deref (heap m) p]) m.

(** [_nextTick]. *)
Definition _nextTick (m : Machine) : Machine :=
  let nextState := nextState m in
  let m := set_records (fun r => r ++ [nextState]) m in
  let m :=
    if Num.ltb (_maxHistory m) (Num.of_nat (length (records m))) then
      set_records
        (fun r => Array.splice (Num.Fin 0)
                    (Num.sub (Num.of_nat (length r)) (_maxHistory m)) r) m
    else m in
  let m := _beginTick m in
  set_tick (fun t => t + 1) m.

(** [rewind]. *)
Definition rewind (n : Num.t) (mutate : option loc) (m : Machine) : Machine :=
  let m :=
    if Num.leb n (_maxHistory m) && Num.isFinite n then
      let m :=
        set_records
          (fun r => Array.splice n (Num.sub (Num.of_nat (length r)) n) r) m in
      set_tick (fun t => t - Num.to_Z n) m
    else
      let m := set_records (fun r => Array.splice (Num.Fin 0)
                                       (Num.of_nat (length r)) r) m in
      let m := set_tick (fun _ => 0) m in
      set_records (fun r => r ++ [_initialState m]) m in
  let m :=
    match mutate with
    | Some p =>
        let '(l, m) :=
          alloc (Object_assign ∅ [deref (heap m) (currentState m); deref (heap m) p]) m in
        match _records m with
        | [] => set_records_m1 (Some l) m
        | _ => set_records (fun r => <[(length r - 1)%nat := l]> r) m
        end
    | None => m
    end in
  _beginTick m.

(** [clear]. *)
Definition clear (m : Machine) : Machine := rewind Num.PosInf None m.

(** The constructor.  The field initialisers run first, then the body.
    [instance] gives the properties of the owning machine, which the
    input bindings read. *)
Definition new (instance : string → Value) (initialState : Obj)
    (inputs : list InputMapping) : Machine :=
  let m :=
    {| heap := []; _exitState := None; properties := instance;
       _initialState := 0%nat; _inputs := inputs;
       _maxHistory := Num.PosInf; _inputKeys := [];
       _records := []; _records_m1 := None; _tick := 0;
       _nextState := 0%nat |} in
  let m :=
    foldl (fun m input => set_inputKeys (fun ks => ks ++ [key input]) m)
          m inputs in
  let '(l, m) := alloc (Object_assign ∅ [initialState; _collectInputs m]) m in
  let m := set_initialState l m in
  let '(l, m) := alloc (Object_assign ∅ [deref (heap m) (_initialState m)]) m in
  let m := set_nextState l m in
  _nextTick m.

End HistoryManager.

(** ** The program and the execution engine *)

(** Modelled from the spec: the types [ActivationCond], [ActivationAction]
    and [PriorityExpression] of [./index] are not among the sources.  A
    condition, an action and a priority function are called with the
    current state and the machine, and each may act on the machine; an
    action returns a partial state or nothing. *)
Definition ActivationCond := loc → Machine → bool * Machine.
Definition ActivationAction := loc → Machine → option loc * Machine.
Definition PriorityExpression := loc → Machine → Num.t * Machine.

(** The [priority] field of an entry: a number, a function, or nothing when
    the action carries no priority. *)
Inductive Priority :=
| PriorityNumber (n : Num.t)
| PriorityFunction (f : PriorityExpression)
| PriorityUndefined.

Record ProgramEntry := {
  action : ActivationAction;
  priority : Priority
}.

(** The program map, as its entries in insertion order. *)
Abbreviation Program := (list (ActivationCond * ProgramEntry)).

(** An entry whose priority has been resolved for the tick. *)
Record Resolved := {
  r_cond : ActivationCond;
  r_action : ActivationAction;
  r_priority : Num.t
}.

(** How the loop over the sorted entries ends. *)
Inductive LoopEnd :=
| Returned (result : nat) (m : Machine)
| Broke (fired : nat) (m : Machine)
| Exhausted (fired : nat) (m : Machine).

Module StateMachine.
Import HistoryManager.

(** [exitState]. *)
Definition exitState (m : Machine) : option loc := _exitState m.

(** The priority of one entry for this tick:
    [(typeof priority === 'function' ? priority(currentState, this)
      : priority) || 0]. *)
Definition resolve_priority (currentState : loc) (p : Priority)
    (m : Machine) : Num.t * Machine :=
  match p with
  | PriorityFunction f =>
      let '(n, m) := f currentState m in (Num.or_zero n, m)
  | PriorityNumber n => (Num.or_zero n, m)
  | PriorityUndefined => (Num.Fin 0, m)
  end.

(** The [map] over the entries of the program, in insertion order. *)
Fixpoint resolve (currentState : loc) (program : Program) (m : Machine)
    : list Resolved * Machine :=
  match program with
  | [] => ([], m)
  | (cond, entry) :: program =>
      let '(p, m) := resolve_priority currentState (priority entry) m in
      let '(rest, m) := resolve currentState program m in
      ({| r_cond := cond; r_action := action entry; r_priority := p |}
         :: rest, m)
  end.

(** The comparator [(p1, p2) => p1 - p2]. *)
Definition by_priority (a b : Resolved) : Num.t :=
  Num.sub (r_priority a) (r_priority b).

(** [actions]: the resolved entries, sorted. *)
Definition sorted_actions (currentState : loc) (program : Program)
    (m : Machine) : list Resolved * Machine :=
  let '(entries, m) := resolve currentState program m in
  (Array.sort by_priority entries, m).

(** The [for] loop of [step]. *)
Fixpoint step_loop (currentTick : Z) (actions : list Resolved)
    (fired : nat) (m : Machine) : LoopEnd :=
  match actions with
  | [] => Exhausted fired m
  | entry :: actions =>
      if negb (tick m =? currentTick) && negb (is_set (exitState m))
      then Returned (Nat.max 1 fired) m
      else if is_set (exitState m) then Broke fired m
      else
        let '(holds, m) := r_cond entry (currentState m) m in
        if holds then
          let '(newState, m) := r_action entry (currentState m) m in
          let m :=
            match newState with
            | Some p => _mutateTick p m
            | None => m
            end in
          step_loop currentTick actions (S fired) m
        else step_loop currentTick actions fired m
  end.

(** What [step] does after the loop. *)
Definition step_end (r : LoopEnd) : nat * Machine :=
  match r with
  | Returned result m => (result, m)
  | Broke fired m | Exhausted fired m =>
      let m := _nextTick m in
      let m :=
        if (fired =? 0)%nat then set_exitState (Some (currentState m)) m
        else m in
      (fired, m)
  end.

(** The first two statements of [step]. *)
Definition step_begin (m : Machine) : Machine :=
  if tick m <? 1 then _nextTick m else m.

(** [step]. *)
Definition step (program : Program) (m : Machine) : nat * Machine :=
  let m := step_begin m in
  let currentTick := tick m in
  let currentState := currentState m in
  let '(actions, m) := sorted_actions currentState program m in
  step_end (step_loop currentTick actions 0 m).

(** The [while] loop of [run].  It may go on for ever: [fuel] bounds the
    number of iterations, and [None] says that the bound was reached. *)
Fixpoint run_loop (program : Program) (forever : bool) (fuel : nat)
    (m : Machine) : option Machine :=
  if is_set (exitState m) then Some m
  else
    match fuel with
    | O => None
    | S fuel =>
        let '(change, m) := step program m in
        if negb forever && (change =? 0)%nat then Some m
        else run_loop program forever fuel m
    end.

(** [run]: the loop, then [this._exitState || this._history.currentState]. *)
Definition run (program : Program) (forever : bool) (fuel : nat)
    (m : Machine) : option (loc * Machine) :=
  match run_loop program forever fuel m with
  | Some m => Some (default (currentState m) (exitState m), m)
  | None => None
  end.

(** [reset]. *)
Definition reset (initialState : option loc) (m : Machine) : Machine :=
  let initialState := default (HistoryManager.initialState m) initialState in
  let m := set_exitState None m in
  rewind Num.PosInf (Some initialState) m.

(** [exit]. *)
Definition exit (exitState : option loc) (m : Machine) : Machine :=
  match exitState with
  | Some e =>
      let '(l, m) :=
        alloc (Object_assign ∅ [deref (heap m) (currentState m); deref (heap m) e]) m in
      set_exitState (Some l) m
  | None => set_exitState (Some (currentState m)) m
  end.

End StateMachine.

(** ** Vocabulary of the statements *)

#[global] Instance Num_eq_dec : EqDecision Num.t.
Proof. solve_decision. Defined.

(** The test of [rewind]: [n <= this._maxHistory && Number.isFinite(n)]. *)
Definition within_limit (n : Num.t) (m : Machine) : bool :=
  Num.leb n (_maxHistory m) && Num.isFinite n.

(** What [_nextTick] keeps of the records once the pending state is
    pushed. *)
Definition retained (limit : Num.t) (r : list loc) : list loc :=
  if Num.ltb limit (Num.of_nat (length r)) then
    Array.splice (Num.Fin 0) (Num.sub (Num.of_nat (length r)) limit) r
  else r.

(** Commits in a row; [stages] lists, for each of them, the partial states
    staged before it. *)
Definition commits (stages : list (list loc)) (m : Machine) : Machine :=
  foldl
    (fun m staged =>
       HistoryManager._nextTick
         (foldl (fun m p => HistoryManager._mutateTick p m) m staged))
    m stages.

(** [n] calls of [step]. *)
Fixpoint steps (program : Program) (n : nat) (m : Machine) : Machine :=
  match n with
  | O => m
  | S n => snd (StateMachine.step program (steps program n m))
  end.

(** [quiescent_at program k m]: from [m], the first [k] calls of [step]
    start without an exit state and fire something, and the next call
    starts without an exit state and fires nothing. *)
Definition quiescent_at (program : Program) (k : nat) (m : Machine) : Prop :=
  (∀ i, (i < k)%nat →
     StateMachine.exitState (steps program i m) = None
     ∧ fst (StateMachine.step program (steps program i m)) ≠ 0%nat)
  ∧ StateMachine.exitState (steps program k m) = None
  ∧ fst (StateMachine.step program (steps program k m)) = 0%nat.

(** The rewind test at the head of the loop body of [step]. *)
Definition rewound (currentTick : Z) (m : Machine) : bool :=
  negb (HistoryManager.tick m =? currentTick)
  && negb (is_set (StateMachine.exitState m)).

(** The machine a loop leaves. *)
Definition loop_machine (r : LoopEnd) : Machine :=
  match r with
  | Returned _ m | Broke _ m | Exhausted _ m => m
  end.

(** The sorted entries that [step] walks, and the machine when it starts
    to walk them. *)
Definition actions_of (program : Program) (m : Machine) : list Resolved :=
  fst (StateMachine.sorted_actions
         (HistoryManager.currentState (StateMachine.step_begin m)) program
         (StateMachine.step_begin m)).

Definition machine_at_loop (program : Program) (m : Machine) : Machine :=
  snd (StateMachine.sorted_actions
         (HistoryManager.currentState (StateMachine.step_begin m)) program
         (StateMachine.step_begin m)).

(** An entry of the program with its priority resolved in machine [m]. *)
Definition resolved_entry (currentState : loc)
    (e : ActivationCond * ProgramEntry) (m : Machine) : Resolved :=
  {| r_cond := fst e; r_action := action (snd e);
     r_priority :=
       fst (StateMachine.resolve_priority currentState (priority (snd e)) m) |}.

(** [a] may come before [b]: its priority is not the greater one. *)
Definition priority_le (a b : Resolved) : Prop :=
  Num.leb (r_priority a) (r_priority b) = true.

(** The entries of priority [p], in the order of the list. *)
Definition with_priority (p : Num.t) (l : list Resolved) : list Resolved :=
  filter (fun r => r_priority r = p) l.

(** The priority of the entry is a number that can be compared. *)
Definition comparable (r : Resolved) : Prop := r_priority r ≠ Num.NaN.

(** ** Programs and machines of the scenarios *)

Module Scenario.
Import HistoryManager StateMachine.

(** A field of a state, read as a number. *)
Definition number_at (field : string) (o : Obj) : Z :=
  match o !! field with
  | Some (VNumber z) => z
  | _ => 0
  end.

Definition counter (o : Obj) : Z := number_at "counter" o.

Definition always_true : ActivationCond := fun _ m => (true, m).

(** [state => state.counter >= n]. *)
Definition counter_at_least (n : Z) : ActivationCond :=
  fun state m => (n <=? counter (deref (heap m) state), m).

(** [state => state.counter < n]. *)
Definition counter_below (n : Z) : ActivationCond :=
  fun state m => (counter (deref (heap m) state) <? n, m).

(** [state => ({ counter: state.counter + 1 })]. *)
Definition increment : ActivationAction :=
  fun state m =>
    let '(l, m) :=
      alloc {[ "counter" := VNumber (counter (deref (heap m) state) + 1) ]} m in
    (Some l, m).

(** [(state, m) => { m.exit() }]. *)
Definition halt : ActivationAction := fun _ m => (None, exit None m).

(** [(state, m) => { m.history.rewind(1) }]. *)
Definition rewind_once : ActivationAction :=
  fun _ m => (None, rewind (Num.Fin 1) None m).

(** [state => state]: the action hands back the object it was given. *)
Definition same_state : ActivationAction := fun state m => (Some state, m).

(** [(state, m) => m.history.nextState]. *)
Definition pending_state : ActivationAction :=
  fun _ m => (Some (nextState m), m).

(** [(state, m) => ({ trace: 10 * m.history.nextState.trace + d })]: the
    digits of [trace] tell in which order such actions fired. *)
Definition push_digit (d : Z) : ActivationAction :=
  fun _ m =>
    let trace := number_at "trace" (deref (heap m) (nextState m)) in
    let '(l, m) := alloc {[ "trace" := VNumber (10 * trace + d) ]} m in
    (Some l, m).

Definition entry (cond : ActivationCond) (a : ActivationAction) (p : Z)
    : ActivationCond * ProgramEntry :=
  (cond, {| action := a; priority := PriorityNumber (Num.Fin p) |}).

(** Scenario A: one entry, which always increments the counter. *)
Definition scenarioA : Program := [entry always_true increment 0].

(** Scenario B: scenario A and a halt once the counter has reached 3. *)
Definition scenarioB : Program :=
  scenarioA ++ [entry (counter_at_least 3) halt 1].

(** Scenario C: a rewind, with two entries of lower priority behind it. *)
Definition scenarioC : Program :=
  [entry always_true rewind_once 0;
   entry always_true increment 1;
   entry always_true increment 2].


(** The counter goes up to 3 and the machine then falls quiet. *)
Definition count_to_3 : Program := [entry (counter_below 3) increment 0].

(** One entry, with the given action and no priority. *)
Definition only (a : ActivationAction) : Program :=
  [(always_true, {| action := a; priority := PriorityUndefined |})].

(** Priorities 5, 1 and 3, in this order of registration. *)
Definition priorities_5_1_3 : Program :=
  [entry always_true (push_digit 5) 5;
   entry always_true (push_digit 1) 1;
   entry always_true (push_digit 3) 3].

(** Two priorities, each given to two entries. *)
Definition priorities_tied : Program :=
  [entry always_true (push_digit 1) 1;
   entry always_true (push_digit 2) 0;
   entry always_true (push_digit 3) 1;
   entry always_true (push_digit 4) 0].

Definition no_properties : string → Value := fun _ => VUndefined.

(** The machine of the scenarios: initial state [{counter: 0}], no input. *)
Definition machineA : Machine :=
  HistoryManager.new no_properties {[ "counter" := VNumber 0 ]} [].


(** One input: the key [sensor] follows the property [reading] of the
    machine, which holds 7. *)
Definition sensor : InputMapping :=
  {| key := "sensor"; propertyKey := "reading"; transform := None |}.

Definition reading_7 : string → Value :=
  fun k => if String.eqb k "reading" then VNumber 7 else VUndefined.

Definition machineI : Machine :=
  HistoryManager.new reading_7 {[ "counter" := VNumber 0 ]} [sensor].

(** A new object [{counter: 7}] in the store of [machineA], to reset it
    with. *)
Definition machineA_with_7 : loc * Machine :=
  alloc {[ "counter" := VNumber 7 ]} machineA.

(** The counters of the retained records, oldest first. *)
Definition counters (m : Machine) : list Z :=
  map (fun l => counter (deref (heap m) l)) (records m).

End Scenario.

(** ** Vocabulary of the order within a tick *)

(** [n || 0] in the words of the specification: a falsy or NaN result
    normalizes to 0. *)
Definition normalized (n : Num.t) : Num.t :=
  match n with
  | Num.NaN => Num.Fin 0
  | _ => n
  end.

(** The priority of an entry registered with [p], in a tick whose state
    at the start is [s], when it is resolved in the machine [m]: the
    number itself, or what the function returns for [s], normalized; 0
    when the entry has no priority. *)
Definition registered_priority (s : loc) (p : Priority) (m : Machine)
    : Num.t :=
  match p with
  | PriorityNumber n => normalized n
  | PriorityFunction f => normalized (fst (f s m))
  | PriorityUndefined => Num.Fin 0
  end.

(** The priority functions of the entries called in turn, each one once,
    with the state [s]; what they do to the machine. *)
Definition call_priorities (s : loc) (program : Program) (m : Machine)
    : Machine :=
  foldl
    (fun m (e : ActivationCond * ProgramEntry) =>
       match priority (snd e) with
       | PriorityFunction f => snd (f s m)
       | _ => m
       end)
    m program.

(** The entries in the order of their registration, each with the
    priority it has in the tick: the function of entry [i] is called
    after those of the entries before it. *)
Definition registered (s : loc) (program : Program) (m : Machine)
    : list Resolved :=
  imap
    (fun i (e : ActivationCond * ProgramEntry) =>
       {| r_cond := fst e; r_action := action (snd e);
          r_priority :=
            registered_priority s (priority (snd e))
              (call_priorities s (take i program) m) |})
    program.

(** The evaluation of one entry: its condition is called with the current
    state; if it holds, the action is called, what it returns is staged,
    and the entry counts as fired. *)
Definition evaluate (e : Resolved) (fired : nat) (m : Machine)
    : nat * Machine :=
  let '(holds, m) := r_cond e (HistoryManager.currentState m) m in
  if holds then
    let '(newState, m) := r_action e (HistoryManager.currentState m) m in
    (S fired,
     match newState with
     | Some p => HistoryManager._mutateTick p m
     | None => m
     end)
  else (fired, m).

(** An entry that makes its evaluation visible: its condition always
    holds and its action appends the digit [d] to the field [trace] of
    the pending state.  [p] is its priority. *)
Definition traced (e : Z * Priority) : ActivationCond * ProgramEntry :=
  (Scenario.always_true,
   {| action := Scenario.push_digit (fst e); priority := snd e |}).

(** The trace after the digits [ds] have been appended to [t0]. *)
Definition trace_of (ds : list Z) (t0 : Z) : Z :=
  foldl (fun t d => 10 * t + d) t0 ds.

(** The field [trace] of an object of the store. *)
Definition trace_at (m : Machine) (l : loc) : Z :=
  Scenario.number_at "trace" (deref (heap m) l).

(** The sort key of a traced entry in a tick that starts on the machine
    [m]. *)
Definition trace_key (m : Machine) (e : Z * Priority) : Num.t :=
  registered_priority (HistoryManager.currentState m) (snd e) m.

(** The comparator [(a, b) => key(a) - key(b)]. *)
Definition by_key {A} (sort_key : A → Num.t) (a b : A) : Num.t :=
  Num.sub (sort_key a) (sort_key b).

(** A traced entry with its priority resolved on the machine [m]. *)
Definition traced_resolved (m : Machine) (e : Z * Priority) : Resolved :=
  {| r_cond := Scenario.always_true;
     r_action := Scenario.push_digit (fst e);
     r_priority := trace_key m e |}.

(** ** Vocabulary of the further properties *)

(** The retention bound, for a limit that is an integer or Infinity: the
    limit is at least 1 and the records fit within it. *)
Definition bounded (m : Machine) : Prop :=
  Num.leb (Num.Fin 1) (HistoryManager.limit m) = true
  ∧ Num.leb (Num.of_nat (length (HistoryManager.records m)))
      (HistoryManager.limit m) = true.

(** The value that an input binding gives: the source property of the
    machine, transformed if the binding has a transform. *)
Definition input_value (m : Machine) (input : InputMapping) : Value :=
  match transform input with
  | Some f => f (properties m (propertyKey input))
  | None => properties m (propertyKey input)
  end.

(** [typeof priority === 'function']. *)
Definition is_function (p : Priority) : bool :=
  match p with PriorityFunction _ => true | _ => false end.

(** Every condition, action and priority function of the program keeps
    the property [I] of the machine. *)
Definition respects (I : Machine → Prop) (program : Program) : Prop :=
  Forall
    (fun e : ActivationCond * ProgramEntry =>
       (∀ s m, I m → I (snd (fst e s m)))
       ∧ (∀ s m, I m → I (snd (action (snd e) s m)))
       ∧ (∀ f, priority (snd e) = PriorityFunction f →
            ∀ s m, I m → I (snd (f s m))))
    program.

(** How many records [rewind(n)] keeps, for a finite [n] within the limit:
    [n] itself, or [length + n] for a negative [n]. *)
Definition rewind_keeps (n : Z) (len : nat) : nat :=
  Z.to_nat (if n <? 0 then Z.of_nat len + n else n).

(** Every reference held by the machine points into the store. *)
Definition allocated (m : Machine) : Prop :=
  Forall (fun l => (l < length (heap m))%nat) (HistoryManager.records m)
  ∧ (HistoryManager.initialState m < length (heap m))%nat
  ∧ (HistoryManager.nextState m < length (heap m))%nat
  ∧ (∀ l, StateMachine.exitState m = Some l → (l < length (heap m))%nat)
  ∧ (∀ l, _records_m1 m = Some l → (l < length (heap m))%nat).

(** The pending state is an object of its own: no record, not the initial
    state and not the exit state. *)
Definition pending_apart (m : Machine) : Prop :=
  (HistoryManager.nextState m ∉ HistoryManager.records m)
  ∧ HistoryManager.nextState m ≠ HistoryManager.initialState m
  ∧ StateMachine.exitState m ≠ Some (HistoryManager.nextState m)
  ∧ _records_m1 m ≠ Some (HistoryManager.nextState m).

(** No entry of the program has a function for its priority. *)
Definition constant_priorities (program : Program) : Prop :=
  Forall (fun e : ActivationCond * ProgramEntry =>
            is_function (priority (snd e)) = false) program.

Module MoreScenario.
Import Scenario.

(** [value => 2 * value]. *)
Definition doubled (v : Value) : Value :=
  match v with
  | VNumber z => VNumber (2 * z)
  | _ => VUndefined
  end.

(** A second binding of the key [sensor], with a transform. *)
Definition sensor_doubled : InputMapping :=
  {| key := "sensor"; propertyKey := "reading"; transform := Some doubled |}.

(** Both bindings of [sensor], the plain one first. *)
Definition machineI2 : Machine :=
  HistoryManager.new reading_7 {[ "counter" := VNumber 0 ]}
    [sensor; sensor_doubled].

(** A program whose one condition never holds. *)
Definition never : Program :=
  [(fun _ m => (false, m),
    {| action := increment; priority := PriorityUndefined |})].

End MoreScenario.

(** [same_history m0 m]: the tick, the records, the limit, the pending
    state and the exit state of [m] are those of [m0]; what a callback
    that calls neither [rewind], [exit] nor the limit setter keeps. *)
Definition same_history (m0 m : Machine) : Prop :=
  HistoryManager.tick m = HistoryManager.tick m0
  ∧ HistoryManager.records m = HistoryManager.records m0
  ∧ HistoryManager.limit m = HistoryManager.limit m0
  ∧ HistoryManager.nextState m = HistoryManager.nextState m0
  ∧ StateMachine.exitState m = StateMachine.exitState m0.

Arguments Object_assign : simpl never.
Arguments Array.splice : simpl never.
Arguments HistoryManager._collectInputs : simpl never.

Ltac machine_cbv :=
  cbv beta iota zeta delta
    [set_heap set_exitState set_maxHistory set_records
     set_records_m1 set_tick set_nextState set_initialState set_inputKeys
     heap _exitState properties _initialState _inputs _maxHistory _inputKeys
     _records _records_m1 _tick _nextState alloc mutate_object
     HistoryManager.records HistoryManager.tick HistoryManager.nextState
     HistoryManager.limit HistoryManager.initialState StateMachine.exitState
     HistoryManager.last_record HistoryManager.currentState
     HistoryManager._collectInputs].

(** * Facts *)

Import HistoryManager StateMachine.

(** ** Numbers and arrays *)

Module NumFacts.

Lemma ltb_sub_zero a b : Num.ltb (Num.sub a b) (Num.Fin 0) = Num.ltb a b.
Proof.
  destruct a as [x| | |], b as [y| | |]; simpl; try reflexivity.
  destruct (Z.ltb_spec (x - y) 0), (Z.ltb_spec x y); (reflexivity || lia).
Qed.

Lemma ltb_irrefl a : Num.ltb a a = false.
Proof. destruct a; simpl; try reflexivity. apply Z.ltb_irrefl. Qed.

Lemma or_zero_not_NaN n : Num.or_zero n ≠ Num.NaN.
Proof. destruct n as [[| |]| | |]; discriminate. Qed.

Lemma ltb_false_leb a b :
  a ≠ Num.NaN → b ≠ Num.NaN → Num.ltb a b = false → Num.leb b a = true.
Proof.
  destruct a, b; simpl; try (congruence || reflexivity).
  rewrite Z.ltb_ge, Z.leb_le. lia.
Qed.

Lemma ltb_leb a b : Num.ltb a b = true → Num.leb a b = true.
Proof.
  destruct a, b; simpl; try (congruence || reflexivity).
  rewrite Z.ltb_lt, Z.leb_le. lia.
Qed.

Lemma min_succ a b limit :
  Num.leb (Num.Fin 1) limit = true →
  Num.of_nat a = Num.min (Num.of_nat b) limit →
  Num.min (Num.of_nat (S a)) limit = Num.min (Num.of_nat (S b)) limit.
Proof.
  unfold Num.of_nat. destruct limit as [L| | |]; simpl; try discriminate.
  - rewrite Z.leb_le. intros HL.
    destruct (Z.ltb_spec L (Z.of_nat b)); intros [= Ha];
      destruct (Z.ltb_spec L (Z.of_nat (S a)));
      destruct (Z.ltb_spec L (Z.of_nat (S b))); try reflexivity; f_equal; lia.
  - intros _ [= Ha]. f_equal. lia.
Qed.

Lemma min_within a limit :
  Num.leb (Num.of_nat a) limit = true →
  Num.min (Num.of_nat a) limit = Num.of_nat a.
Proof.
  unfold Num.of_nat. destruct limit as [L| | |]; simpl; try discriminate.
  - rewrite Z.leb_le. intros HL.
    destruct (Z.ltb_spec L (Z.of_nat a)); [lia|reflexivity].
  - reflexivity.
Qed.

End NumFacts.

Module ArrayFacts.

(** Removing from the front. *)
Lemma splice_front {A} (d : Z) (l : list A) :
  Array.splice (Num.Fin 0) (Num.Fin d) l
  = drop (Z.to_nat (Z.min (Z.max d 0) (Z.of_nat (length l)))) l.
Proof.
  unfold Array.splice, Array.actualStart, Array.actualDeleteCount. simpl.
  rewrite Z.min_l by lia. simpl. rewrite Z.sub_0_r. reflexivity.
Qed.

Lemma splice_everything {A} (l : list A) :
  Array.splice (Num.Fin 0) (Num.of_nat (length l)) l = [].
Proof.
  unfold Num.of_nat. rewrite splice_front.
  rewrite Z.max_l, Z.min_id, Nat2Z.id by lia. apply drop_all.
Qed.

(** [l.splice(n, l.length - n)] keeps the first [n] elements. *)
Lemma splice_keep {A} (n : Z) (l : list A) :
  0 ≤ n →
  Array.splice (Num.Fin n) (Num.sub (Num.of_nat (length l)) (Num.Fin n)) l
  = take (Z.to_nat n) l.
Proof.
  intros Hn. unfold Array.splice, Array.actualStart, Array.actualDeleteCount.
  simpl. destruct (Z.ltb_spec n 0); [lia|].
  destruct (Z.le_gt_cases n (Z.of_nat (length l))).
  - rewrite (Z.min_l n) by lia. rewrite Z.max_l, Z.min_id by lia.
    replace (n + (Z.of_nat (length l) - n)) with (Z.of_nat (length l)) by lia.
    rewrite Nat2Z.id, drop_all. apply app_nil_r.
  - rewrite (Z.min_r n) by lia. rewrite Z.max_r by lia.
    rewrite Z.min_l by lia. rewrite Z.add_0_r, Nat2Z.id, drop_all.
    rewrite take_ge by lia. rewrite take_ge; [apply app_nil_r|lia].
Qed.

End ArrayFacts.

(** ** The history *)

Module HistoryFacts.
Import NumFacts ArrayFacts.

Lemma set_heap_id m : set_heap (fun _ => heap m) m = m.
Proof. destruct m; reflexivity. Qed.

(** Staging touches the object store only. *)
Lemma strip_frame p ks m :
  foldl (fun m k => mutate_object p (delete k) m) m ks
  = set_heap
      (fun _ => heap (foldl (fun m k => mutate_object p (delete k) m) m ks)) m.
Proof.
  revert m. induction ks as [|k ks IH]; intros m; simpl.
  - symmetry. apply set_heap_id.
  - rewrite IH at 1. reflexivity.
Qed.

Lemma _mutateTick_frame p m :
  _mutateTick p m = set_heap (fun _ => heap (_mutateTick p m)) m.
Proof.
  unfold _mutateTick.
  pose proof (strip_frame p (_inputKeys m) m) as H.
  revert H.
  generalize (foldl (fun m k => mutate_object p (delete k) m) m (_inputKeys m)).
  intros A HA. rewrite HA. reflexivity.
Qed.

Lemma _mutateTick_tick p m : _tick (_mutateTick p m) = _tick m.
Proof. rewrite _mutateTick_frame. reflexivity. Qed.

Lemma _mutateTick_records p m : _records (_mutateTick p m) = _records m.
Proof. rewrite _mutateTick_frame. reflexivity. Qed.

Lemma _mutateTick_maxHistory p m : _maxHistory (_mutateTick p m) = _maxHistory m.
Proof. rewrite _mutateTick_frame. reflexivity. Qed.

Lemma _mutateTick_exitState p m : _exitState (_mutateTick p m) = _exitState m.
Proof. rewrite _mutateTick_frame. reflexivity. Qed.

Lemma _mutateTick_nextState p m : _nextState (_mutateTick p m) = _nextState m.
Proof. rewrite _mutateTick_frame. reflexivity. Qed.

Lemma _mutateTick_inputKeys p m : _inputKeys (_mutateTick p m) = _inputKeys m.
Proof. rewrite _mutateTick_frame. reflexivity. Qed.

(** A new pending tick adds one object to the store and points the
    pending state to it. *)
Lemma _beginTick_frame m :
  ∃ o, _beginTick m
       = set_nextState (length (heap m)) (set_heap (fun h => h ++ [o]) m).
Proof. unfold _beginTick, alloc. simpl. eauto. Qed.

(** A commit pushes the pending state, trims, and begins a new tick. *)
Lemma _nextTick_frame m :
  ∃ o, _nextTick m
       = set_tick (fun t => t + 1)
           (set_nextState (length (heap m))
              (set_heap (fun h => h ++ [o])
                 (set_records
                    (fun r => retained (_maxHistory m) (r ++ [_nextState m]))
                    m))).
Proof.
  unfold _nextTick, retained, nextState, records, _beginTick, alloc.
  unfold set_tick, set_nextState, set_heap, set_records. simpl.
  destruct (Num.ltb _ _); simpl; eauto.
Qed.

Lemma _nextTick_tick m : _tick (_nextTick m) = _tick m + 1.
Proof. destruct (_nextTick_frame m) as [o ->]. reflexivity. Qed.

Lemma _nextTick_records m :
  _records (_nextTick m)
  = retained (_maxHistory m) (_records m ++ [_nextState m]).
Proof. destruct (_nextTick_frame m) as [o ->]. reflexivity. Qed.

Lemma _nextTick_maxHistory m : _maxHistory (_nextTick m) = _maxHistory m.
Proof. destruct (_nextTick_frame m) as [o ->]. reflexivity. Qed.

Lemma _nextTick_exitState m : _exitState (_nextTick m) = _exitState m.
Proof. destruct (_nextTick_frame m) as [o ->]. reflexivity. Qed.

Lemma _nextTick_inputKeys m : _inputKeys (_nextTick m) = _inputKeys m.
Proof. destruct (_nextTick_frame m) as [o ->]. reflexivity. Qed.

Lemma _nextTick_inputs m : _inputs (_nextTick m) = _inputs m.
Proof. destruct (_nextTick_frame m) as [o ->]. reflexivity. Qed.

Lemma _nextTick_heap m : ∃ o, heap (_nextTick m) = heap m ++ [o].
Proof. destruct (_nextTick_frame m) as [o ->]. simpl. eauto. Qed.

(** The length of what is retained: [min(length, limit)]. *)
Lemma retained_length limit r :
  Num.leb (Num.Fin 1) limit = true →
  Num.of_nat (length (retained limit r)) = Num.min (Num.of_nat (length r)) limit.
Proof.
  unfold retained, Num.of_nat.
  destruct limit as [L| | |]; simpl; try discriminate.
  - rewrite Z.leb_le. intros HL.
    destruct (Z.ltb_spec L (Z.of_nat (length r))); [|reflexivity].
    rewrite splice_front, length_drop. f_equal. lia.
  - reflexivity.
Qed.

(** The record just pushed is the one retained last. *)
Lemma retained_last limit r x :
  Num.leb (Num.Fin 1) limit = true →
  last (retained limit (r ++ [x])) = Some x.
Proof.
  unfold retained, Num.of_nat.
  destruct limit as [L| | |]; simpl; try discriminate.
  - rewrite Z.leb_le. intros HL.
    destruct (Z.ltb_spec L (Z.of_nat (length (r ++ [x])))); [|apply last_snoc].
    rewrite splice_front. rewrite length_app in *. simpl in *.
    rewrite Z.max_l, Z.min_l by lia.
    rewrite drop_app_le by lia. apply last_snoc.
  - intros _. apply last_snoc.
Qed.

Lemma stage_tick ps m :
  _tick (foldl (fun m p => _mutateTick p m) m ps) = _tick m.
Proof.
  revert m. induction ps as [|p ps IH]; intros m; simpl; [reflexivity|].
  rewrite IH. apply _mutateTick_tick.
Qed.

Lemma stage_records ps m :
  _records (foldl (fun m p => _mutateTick p m) m ps) = _records m.
Proof.
  revert m. induction ps as [|p ps IH]; intros m; simpl; [reflexivity|].
  rewrite IH. apply _mutateTick_records.
Qed.

Lemma stage_maxHistory ps m :
  _maxHistory (foldl (fun m p => _mutateTick p m) m ps) = _maxHistory m.
Proof.
  revert m. induction ps as [|p ps IH]; intros m; simpl; [reflexivity|].
  rewrite IH. apply _mutateTick_maxHistory.
Qed.

(** Commits add their number to the tick and grow the records up to the
    limit. *)
Lemma commits_count stages m :
  Num.leb (Num.Fin 1) (limit m) = true →
  Num.leb (Num.of_nat (length (records m))) (limit m) = true →
  tick (commits stages m) = tick m + Z.of_nat (length stages)
  ∧ limit (commits stages m) = limit m
  ∧ Num.of_nat (length (records (commits stages m)))
    = Num.min (Num.of_nat (length (records m) + length stages)) (limit m).
Proof.
  unfold tick, limit, records, commits.
  intros Hl Hr. induction stages as [|ps stages IH] using rev_ind.
  - cbn [foldl length].
    rewrite Z.add_0_r, Nat.add_0_r, min_within by assumption. auto.
  - destruct IH as (Ht & Hm & Hn).
    rewrite foldl_app. cbn [foldl].
    rewrite _nextTick_tick, _nextTick_maxHistory, _nextTick_records.
    rewrite stage_tick, stage_maxHistory, stage_records, Ht, Hm.
    rewrite length_app. cbn [length].
    split; [lia|]. split; [reflexivity|].
    rewrite retained_length by assumption.
    rewrite length_app. cbn [length]. rewrite !Nat.add_1_r, Nat.add_succ_r.
    apply min_succ; assumption.
Qed.

Lemma inputKeys_frame inputs m :
  foldl (fun m input => set_inputKeys (fun ks => ks ++ [key input]) m) m inputs
  = set_inputKeys (fun ks => ks ++ map key inputs) m.
Proof.
  revert m. induction inputs as [|i inputs IH]; intros m; simpl.
  - destruct m. unfold set_inputKeys. simpl. rewrite app_nil_r. reflexivity.
  - rewrite IH. destruct m. unfold set_inputKeys. simpl.
    rewrite <- app_assoc. reflexivity.
Qed.

(** The machine as the constructor leaves it: one record, and tick 1. *)
Lemma new_counts instance init inputs :
  let m := HistoryManager.new instance init inputs in
  tick m = 1 ∧ length (records m) = 1%nat ∧ limit m = Num.PosInf.
Proof.
  intros m. subst m. unfold new, tick, records, limit, alloc.
  cbv beta iota zeta.
  rewrite _nextTick_tick, _nextTick_records, _nextTick_maxHistory.
  rewrite inputKeys_frame. cbn. auto.
Qed.

(** Setting a limit on a machine that holds one record. *)
Lemma set_limit_single l m :
  l ≠ Num.NaN → length (records m) = 1%nat →
  let m' := set_limit l m in
  tick m' = tick m ∧ records m' = records m
  ∧ Num.leb (Num.Fin 1) (limit m') = true.
Proof.
  intros Hl Hr. unfold set_limit, tick, records, limit in *.
  destruct m as [h e pr i ins mx ks rs rm1 t ns]. cbn in Hr.
  assert (Hc : ∃ c, (if Num.ltb l (Num.Fin 1) then Num.Fin 1 else l) = c
                    ∧ Num.leb (Num.Fin 1) c = true).
  { destruct l as [z| | |]; simpl; try congruence; eauto.
    destruct (Z.ltb_spec z 1); eexists; split; try reflexivity.
    simpl. apply Z.leb_le. lia. }
  destruct Hc as (c & -> & Hc).
  assert (Hs : Array.splice (Num.Fin 0) (Num.sub (Num.of_nat (length rs)) c) rs
               = rs).
  { rewrite Hr. destruct c as [z| | |]; try discriminate.
    - simpl in *. apply Z.leb_le in Hc. rewrite splice_front.
      rewrite Z.max_r, Z.min_l by lia. reflexivity.
    - unfold Array.splice, Array.actualStart, Array.actualDeleteCount.
      simpl. rewrite Z.min_l by lia. reflexivity. }
  machine_cbv. rewrite Hs. destruct (Num.ltb c mx); auto.
Qed.

(** Its input keys are the keys of its input bindings. *)
Lemma new_inputKeys instance init inputs :
  let m := HistoryManager.new instance init inputs in
  _inputKeys m = map key (_inputs m).
Proof.
  intros m. subst m. unfold new, alloc. cbv beta iota zeta.
  rewrite _nextTick_inputKeys, _nextTick_inputs.
  rewrite inputKeys_frame. reflexivity.
Qed.

End HistoryFacts.

Module RewindFacts.
Import NumFacts ArrayFacts HistoryFacts.

(** A full rewind: one record, the initial state, and tick 0. *)
Lemma rewind_full_frame n m :
  within_limit n m = false →
  ∃ o, rewind n None m
       = set_nextState (length (heap m))
           (set_heap (fun h => h ++ [o])
              (set_records (fun _ => [_initialState m])
                 (set_tick (fun _ => 0) m))).
Proof.
  unfold within_limit, rewind. intros ->. destruct m.
  unfold _beginTick. machine_cbv. rewrite splice_everything. eauto.
Qed.

(** A rewind within the limit. *)
Lemma rewind_finite_frame n m :
  within_limit n m = true →
  ∃ o, rewind n None m
       = set_nextState (length (heap m))
           (set_heap (fun h => h ++ [o])
              (set_records
                 (fun r => Array.splice n (Num.sub (Num.of_nat (length r)) n) r)
                 (set_tick (fun t => t - Num.to_Z n) m))).
Proof.
  unfold within_limit, rewind. intros ->. destruct m.
  unfold _beginTick. machine_cbv. eauto.
Qed.

(** Within the limit, [rewind(n)] keeps the [n] oldest records and takes
    [n] off the tick. *)
Lemma rewind_keeps_oldest n m :
  0 ≤ n → Num.leb (Num.Fin n) (limit m) = true →
  records (rewind (Num.Fin n) None m) = take (Z.to_nat n) (records m)
  ∧ tick (rewind (Num.Fin n) None m) = tick m - n.
Proof.
  intros Hn Hl.
  destruct (rewind_finite_frame (Num.Fin n) m) as [o ->].
  { unfold within_limit. unfold limit in Hl. rewrite Hl. reflexivity. }
  unfold records, tick. cbn [_records _tick set_nextState set_heap set_records set_tick].
  split; [apply splice_keep, Hn|reflexivity].
Qed.

(** [reset] with a state: a full rewind whose one record is a new object,
    the initial state overlaid with the state given. *)
Lemma reset_frame p m :
  ∃ o, reset (Some p) m
       = set_nextState (S (length (heap m)))
           (set_heap
              (fun h =>
                 h ++ [Object_assign ∅
                         [deref (heap m) (_initialState m); deref (heap m) p]]
                   ++ [o])
              (set_records (fun _ => [length (heap m)])
                 (set_tick (fun _ => 0) (set_exitState None m)))).
Proof.
  unfold reset, rewind. rewrite andb_false_r. destruct m.
  unfold _beginTick. machine_cbv. rewrite splice_everything. cbn.
  rewrite length_app, Nat.add_1_r, <- app_assoc. cbn. eauto.
Qed.

End RewindFacts.

(** ** The engine *)

Module StepFacts.
Import NumFacts ArrayFacts HistoryFacts.

Lemma step_unfold program m :
  step program m
  = step_end (step_loop (tick (step_begin m)) (actions_of program m) 0
                (machine_at_loop program m)).
Proof.
  unfold step, actions_of, machine_at_loop.
  destruct (sorted_actions _ _ _). reflexivity.
Qed.

(** The loop over a list in two parts. *)
Lemma step_loop_app currentTick pre post fired m :
  step_loop currentTick (pre ++ post) fired m
  = match step_loop currentTick pre fired m with
    | Exhausted fired' m' => step_loop currentTick post fired' m'
    | r => r
    end.
Proof.
  revert fired m. induction pre as [|e pre IH]; intros fired m; simpl.
  - reflexivity.
  - destruct (negb (tick m =? currentTick) && _); [reflexivity|].
    destruct (is_set _); [reflexivity|].
    destruct (r_cond e (currentState m) m) as [[] m1]; [|apply IH].
    destruct (r_action e (currentState m1) m1) as [[p|] m2]; apply IH.
Qed.

Lemma step_loop_rewound currentTick e rest fired m :
  rewound currentTick m = true →
  step_loop currentTick (e :: rest) fired m = Returned (Nat.max 1 fired) m.
Proof. unfold rewound. simpl. intros ->. reflexivity. Qed.

Lemma step_loop_exited currentTick e rest fired m s :
  exitState m = Some s →
  step_loop currentTick (e :: rest) fired m = Broke fired m.
Proof. intros H. simpl. rewrite H. simpl. rewrite andb_false_r. reflexivity. Qed.

(** An early return never reports zero. *)
Lemma step_loop_returned currentTick actions fired m result m' :
  step_loop currentTick actions fired m = Returned result m' →
  (1 ≤ result)%nat.
Proof.
  revert fired m. induction actions as [|e actions IH]; intros fired m; simpl.
  - discriminate.
  - destruct (negb (tick m =? currentTick) && _).
    { intros [= <- _]. lia. }
    destruct (is_set _); [discriminate|].
    destruct (r_cond e (currentState m) m) as [[] m1]; [|apply IH].
    destruct (r_action e (currentState m1) m1) as [[p|] m2]; apply IH.
Qed.

Lemma step_end_zero r :
  fst (step_end r) = 0%nat →
  (∀ result m, r = Returned result m → (1 ≤ result)%nat) →
  exitState (snd (step_end r)) = Some (currentState (snd (step_end r))).
Proof.
  destruct r as [result m|fired m|fired m]; simpl.
  - intros -> H. specialize (H _ _ eq_refl). lia.
  - intros -> _. reflexivity.
  - intros -> _. reflexivity.
Qed.

(** A tick in which nothing fires sets the exit state, to the state it has
    just committed. *)
Lemma step_zero_exits program m :
  fst (step program m) = 0%nat →
  exitState (snd (step program m))
  = Some (currentState (snd (step program m))).
Proof.
  rewrite step_unfold. intros H. apply step_end_zero; [exact H|].
  intros result m' E. eapply step_loop_returned, E.
Qed.

Lemma run_loop_done program forever fuel m s :
  exitState m = Some s → run_loop program forever fuel m = Some m.
Proof. intros H. destruct fuel; simpl; rewrite H; reflexivity. Qed.

(** The flag of [run] makes no difference to its loop. *)
Lemma run_loop_flag program fuel m :
  run_loop program true fuel m = run_loop program false fuel m.
Proof.
  revert m. induction fuel as [|fuel IH]; intros m; simpl.
  - reflexivity.
  - destruct (is_set (exitState m)); [reflexivity|].
    pose proof (step_zero_exits program m) as Hz.
    destruct (step program m) as [change m1]. simpl in *.
    destruct (Nat.eqb_spec change 0) as [->|]; [|apply IH].
    apply (run_loop_done _ _ _ _ _ (Hz eq_refl)).
Qed.

Lemma steps_shift program n m :
  steps program n (snd (step program m)) = steps program (S n) m.
Proof.
  induction n as [|n IH]; [reflexivity|].
  cbn [steps] in *. rewrite IH. reflexivity.
Qed.

(** With fuel enough, the loop ends with the first tick in which nothing
    fires. *)
Lemma run_loop_quiescent program k :
  ∀ m, quiescent_at program k m →
  ∀ forever fuel, (k < fuel)%nat →
    run_loop program forever fuel m = Some (steps program (S k) m)
    ∧ exitState (steps program (S k) m)
      = Some (currentState (steps program (S k) m)).
Proof.
  induction k as [|k IH]; intros m (Hpre & Hm & Hz) forever fuel Hk.
  - cbn [steps] in *.
    destruct fuel as [|fuel]; [lia|]. simpl. rewrite Hm. simpl.
    pose proof (step_zero_exits program m Hz) as He.
    destruct (step program m) as [change m1]. simpl in *. subst change.
    split; [|exact He].
    destruct forever; simpl; [|reflexivity].
    apply (run_loop_done _ _ _ _ _ He).
  - destruct (Hpre 0%nat) as [H0 Hnz]; [lia|]. cbn [steps] in H0, Hnz.
    destruct (IH (snd (step program m))) with (forever := forever) (fuel := pred fuel)
      as [Hrun He].
    { split; [|split].
      - intros i Hi. rewrite steps_shift. apply Hpre. lia.
      - rewrite steps_shift. exact Hm.
      - rewrite steps_shift. exact Hz. }
    { lia. }
    rewrite steps_shift in Hrun, He. split; [|exact He].
    destruct fuel as [|fuel]; [lia|]. simpl in *. rewrite H0. simpl.
    destruct (step program m) as [change m1]. simpl in *.
    destruct (Nat.eqb_spec change 0); [contradiction|].
    rewrite andb_false_r. exact Hrun.
Qed.

Lemma step_begin_exitState m : exitState (step_begin m) = exitState m.
Proof.
  unfold step_begin, exitState. destruct (tick m <? 1); [|reflexivity].
  apply _nextTick_exitState.
Qed.

End StepFacts.

(** ** The order of the entries *)

Module SortFacts.
Import NumFacts.

Lemma before_by_priority y x :
  Array.before by_priority y x = Num.ltb (r_priority y) (r_priority x).
Proof. apply ltb_sub_zero. Qed.

Lemma insert_perm x l : Permutation (Array.insert by_priority x l) (x :: l).
Proof.
  induction l as [|y l IH]; simpl; [reflexivity|].
  destruct (Array.before by_priority y x); [|reflexivity].
  rewrite IH. apply perm_swap.
Qed.

Lemma sort_perm l : Permutation (Array.sort by_priority l) l.
Proof.
  induction l as [|x l IH]; simpl; [reflexivity|].
  rewrite insert_perm. constructor. exact IH.
Qed.

Lemma insert_HdRel y x l :
  priority_le y x → HdRel priority_le y l →
  HdRel priority_le y (Array.insert by_priority x l).
Proof.
  intros Hyx Hl. destruct l as [|z l]; simpl; [constructor; exact Hyx|].
  destruct (Array.before by_priority z x); constructor.
  - inversion Hl; assumption.
  - exact Hyx.
Qed.

Lemma insert_sorted x l :
  comparable x → Forall comparable l →
  Sorted priority_le l → Sorted priority_le (Array.insert by_priority x l).
Proof.
  intros Hx Hl Hs. induction l as [|y l IH]; simpl.
  - repeat constructor.
  - apply Forall_cons in Hl as [Hy Hl]. apply Sorted_inv in Hs as [Hs Hhd].
    rewrite before_by_priority.
    destruct (Num.ltb (r_priority y) (r_priority x)) eqn:E.
    + constructor; [apply IH; assumption|].
      apply insert_HdRel; [|assumption]. apply ltb_leb, E.
    + constructor; [constructor; assumption|].
      constructor. apply ltb_false_leb; assumption.
Qed.

Lemma sort_comparable l :
  Forall comparable l → Forall comparable (Array.sort by_priority l).
Proof.
  intros H. eapply Permutation_Forall; [|exact H].
  symmetry. apply sort_perm.
Qed.

Lemma sort_sorted l :
  Forall comparable l → Sorted priority_le (Array.sort by_priority l).
Proof.
  induction l as [|x l IH]; simpl; intros H; [constructor|].
  apply Forall_cons in H as [Hx Hl].
  apply insert_sorted; auto using sort_comparable.
Qed.

Lemma insert_with_priority p x l :
  with_priority p (Array.insert by_priority x l) = with_priority p (x :: l).
Proof.
  unfold with_priority. induction l as [|y l IH]; simpl; [reflexivity|].
  rewrite before_by_priority.
  destruct (Num.ltb (r_priority y) (r_priority x)) eqn:E; [|reflexivity].
  rewrite (filter_cons _ y), IH, !filter_cons.
  destruct (decide (r_priority y = p)) as [Hy|]; [|reflexivity].
  destruct (decide (r_priority x = p)) as [Hx|]; [|reflexivity].
  rewrite Hy, Hx, ltb_irrefl in E. discriminate.
Qed.

(** The sort is stable: the entries of one priority keep their order. *)
Lemma sort_stable p l :
  with_priority p (Array.sort by_priority l) = with_priority p l.
Proof.
  induction l as [|x l IH]; simpl; [reflexivity|].
  rewrite insert_with_priority. unfold with_priority in *.
  rewrite !filter_cons, IH. reflexivity.
Qed.

Lemma resolve_priority_comparable s p m :
  fst (resolve_priority s p m) ≠ Num.NaN.
Proof.
  destruct p as [n|f|]; simpl.
  - apply or_zero_not_NaN.
  - destruct (f s m). apply or_zero_not_NaN.
  - discriminate.
Qed.

Lemma resolve_comparable s program m :
  Forall comparable (fst (resolve s program m)).
Proof.
  revert m. induction program as [|[cond entry] program IH]; intros m; simpl.
  - constructor.
  - pose proof (resolve_priority_comparable s (priority entry) m) as Hp.
    destruct (resolve_priority s (priority entry) m) as [p m1].
    specialize (IH m1). destruct (resolve s program m1) as [rest m2].
    constructor; assumption.
Qed.

(** Each entry is resolved once, in the order of registration, in the
    machine that the entries before it have left. *)
Lemma resolve_lookup s program m i e :
  program !! i = Some e →
  fst (resolve s program m) !! i
  = Some (resolved_entry s e (snd (resolve s (take i program) m))).
Proof.
  revert m i.
  induction program as [|[cond entry] program IH]; intros m i; [discriminate|].
  destruct i as [|i]; simpl.
  - intros [= <-]. unfold resolved_entry. simpl.
    destruct (resolve_priority s (priority entry) m) as [p m1].
    destruct (resolve s program m1) as [rest m2]. reflexivity.
  - intros H.
    specialize (IH (snd (resolve_priority s (priority entry) m)) i H).
    destruct (resolve_priority s (priority entry) m) as [p m1]. simpl in IH.
    destruct (resolve s program m1) as [rest m2] eqn:E1.
    destruct (resolve s (take i program) m1) as [rest' m2'] eqn:E2.
    simpl in *. exact IH.
Qed.

Lemma resolve_length s program m :
  length (fst (resolve s program m)) = length program.
Proof.
  revert m.
  induction program as [|[cond entry] program IH]; intros m; simpl; [reflexivity|].
  destruct (resolve_priority s (priority entry) m) as [p m1].
  specialize (IH m1). destruct (resolve s program m1). simpl in *. lia.
Qed.

Lemma resolve_imap s program m :
  fst (resolve s program m)
  = imap (fun i e => resolved_entry s e (snd (resolve s (take i program) m)))
         program.
Proof.
  apply list_eq. intros i. rewrite list_lookup_imap.
  destruct (program !! i) as [e|] eqn:E; cbn [fmap option_fmap option_map].
  - apply resolve_lookup, E.
  - apply lookup_ge_None. rewrite resolve_length.
    apply lookup_ge_None, E.
Qed.

End SortFacts.

(** ** Scenario A, tick by tick *)

Module ScenarioFacts.
Import NumFacts ArrayFacts HistoryFacts StepFacts Scenario.

(** One tick of scenario A: the increment fires, its result is staged and
    the tick commits. *)
Lemma step_scenarioA m :
  exitState m = None →
  let m0 := step_begin m in
  let o : Obj :=
    {[ "counter" :=
         VNumber (counter (deref (heap m0) (currentState m0)) + 1) ]} in
  step scenarioA m
  = (1%nat,
     _nextTick
       (_mutateTick (length (heap m0)) (set_heap (fun h => h ++ [o]) m0))).
Proof.
  intros He. rewrite <- step_begin_exitState in He.
  unfold step, sorted_actions, scenarioA, entry.
  generalize dependent (step_begin m). clear m. intros m He.
  cbn [resolve resolve_priority priority action Array.sort foldr Array.insert].
  cbn [step_loop r_cond r_action].
  rewrite Z.eqb_refl, He. cbn [negb andb is_set].
  unfold always_true, increment, alloc. cbv beta iota zeta.
  cbn [step_end Nat.eqb]. reflexivity.
Qed.

(** The state of scenario A after [n] calls of [step]. *)
Lemma scenarioA_invariant n :
  let m := steps scenarioA n machineA in
  exitState m = None ∧ tick m = Z.of_nat n + 1
  ∧ length (records m) = S n ∧ limit m = Num.PosInf
  ∧ _inputKeys m = []
  ∧ (_nextState m < length (heap m))%nat
  ∧ counter (deref (heap m) (currentState m)) = Z.of_nat n.
Proof.
  induction n as [|n IH]; cbn [steps].
  - vm_compute. repeat split; solve [reflexivity | lia].
  - destruct IH as (He & Ht & Hr & Hl & Hk & Hn & Hc).
    rewrite (step_scenarioA _ He). cbn [snd].
    unfold exitState, tick, records, limit in *.
    assert (Hb : step_begin (steps scenarioA n machineA)
                 = steps scenarioA n machineA).
    { unfold step_begin, tick. rewrite Ht.
      destruct (Z.ltb_spec (Z.of_nat n + 1) 1); [lia|reflexivity]. }
    rewrite Hb, Hc.
    set (m := steps scenarioA n machineA) in *.
    set (o := {[ "counter" := VNumber (Z.of_nat n + 1) ]} : Obj).
    set (m1 := set_heap (fun h => h ++ [o]) m).
    assert (Hm2 : heap (_mutateTick (length (heap m)) m1)
                  = alter (fun o' : Obj => Object_assign o' [o]) (_nextState m)
                      (heap m ++ [o])).
    { unfold _mutateTick. replace (_inputKeys m1) with (@nil string) by (symmetry; exact Hk).
      cbn [foldl]. unfold mutate_object, m1. cbn [heap set_heap _nextState].
      unfold deref. rewrite lookup_app_r, Nat.sub_diag by lia. reflexivity. }
    set (m2 := _mutateTick (length (heap m)) m1) in *.
    assert (He2 : _exitState m2 = None)
      by (unfold m2; rewrite _mutateTick_exitState; exact He).
    assert (Ht2 : _tick m2 = Z.of_nat n + 1)
      by (unfold m2; rewrite _mutateTick_tick; exact Ht).
    assert (Hr2 : _records m2 = _records m)
      by (unfold m2; rewrite _mutateTick_records; reflexivity).
    assert (Hl2 : _maxHistory m2 = Num.PosInf)
      by (unfold m2; rewrite _mutateTick_maxHistory; exact Hl).
    assert (Hk2 : _inputKeys m2 = [])
      by (unfold m2; rewrite _mutateTick_inputKeys; exact Hk).
    assert (Hn2 : _nextState m2 = _nextState m)
      by (unfold m2; rewrite _mutateTick_nextState; reflexivity).
    destruct (_nextTick_frame m2) as [o2 ->].
    unfold currentState, last_record.
    cbn [_exitState _tick _records _maxHistory _inputKeys _nextState heap
         set_tick set_nextState set_heap set_records].
    rewrite He2, Ht2, Hr2, Hl2, Hk2, Hn2.
    unfold retained, Num.of_nat. cbn [Num.ltb].
    rewrite last_snoc, !length_app, Hr. cbn [length].
    split; [reflexivity|]. split; [lia|]. split; [lia|]. split; [reflexivity|].
    split; [reflexivity|]. split; [lia|].
    assert (Hlen : length (heap m2) = S (length (heap m)))
      by (rewrite Hm2, length_alter, length_app; cbn [length]; lia).
    unfold deref. rewrite lookup_app_l by lia.
    rewrite Hm2, list_lookup_alter_eq, lookup_app_l by exact Hn.
    destruct (lookup_lt_is_Some_2 (heap m) (_nextState m) Hn) as [o' ->].
    cbn [fmap option_fmap option_map default].
    unfold Object_assign, counter, number_at, o, id. cbn [foldl].
    rewrite lookup_union_l' by (rewrite lookup_singleton_eq; eauto).
    rewrite lookup_singleton_eq. lia.
Qed.

End ScenarioFacts.

(** ** Input keys *)

Module InputFacts.
Import NumFacts ArrayFacts HistoryFacts.

Lemma strip_heap p ks m :
  heap (foldl (fun m k => mutate_object p (delete k) m) m ks)
  = alter (fun o : Obj => foldl (fun o k => delete k o) o ks) p (heap m).
Proof.
  revert m. induction ks as [|k ks IH]; intros m; cbn [foldl].
  - symmetry. apply list_alter_id. reflexivity.
  - rewrite IH. unfold mutate_object. cbn [heap set_heap].
    rewrite list_alter_alter_eq. reflexivity.
Qed.

Lemma strip_lookup (ks : list string) (o : Obj) k :
  k ∈ ks → foldl (fun o k => delete k o) o ks !! k = None.
Proof.
  revert o. induction ks as [|k' ks IH]; intros o Hk; cbn [foldl].
  - inversion Hk.
  - destruct (decide (k ∈ ks)) as [Hin|Hnin]; [apply IH, Hin|].
    apply elem_of_cons in Hk as [->|]; [|contradiction].
    clear IH. revert o. induction ks as [|k'' ks IH]; intros o; cbn [foldl].
    + apply lookup_delete_eq.
    + apply not_elem_of_cons in Hnin as [Hne Hnin].
      rewrite delete_delete. apply IH, Hnin.
Qed.

(** What is staged never holds an input key, so the pending value of an
    input key stays: as long as the object handed in is not the pending
    state itself. *)
Lemma _mutateTick_keeps_inputs p m k :
  k ∈ _inputKeys m → p ≠ _nextState m →
  deref (heap (_mutateTick p m)) (_nextState m) !! k
  = deref (heap m) (_nextState m) !! k.
Proof.
  intros Hk Hp. unfold _mutateTick.
  set (m1 := foldl (fun m k => mutate_object p (delete k) m) m (_inputKeys m)).
  assert (Hn : _nextState m1 = _nextState m).
  { unfold m1. rewrite strip_frame. reflexivity. }
  assert (Hh : heap m1 !! _nextState m = heap m !! _nextState m).
  { unfold m1. rewrite strip_heap. apply list_lookup_alter_ne. exact Hp. }
  assert (Hd : deref (heap m1) p !! k = None).
  { unfold deref, m1. rewrite strip_heap.
    rewrite list_lookup_alter_eq.
    destruct (heap m !! p) as [o|]; simpl; [|apply lookup_empty].
    apply strip_lookup, Hk. }
  unfold mutate_object. cbn [heap set_heap]. rewrite Hn.
  unfold deref at 1. rewrite list_lookup_alter_eq, Hh.
  unfold deref at 2.
  destruct (heap m !! _nextState m) as [o|]; simpl; [|reflexivity].
  unfold Object_assign. cbn [foldl]. apply lookup_union_r, Hd.
Qed.

Lemma _mutateTick_heap_length p m :
  length (heap (_mutateTick p m)) = length (heap m).
Proof.
  unfold _mutateTick.
  set (m1 := foldl (fun m k => mutate_object p (delete k) m) m (_inputKeys m)).
  unfold mutate_object. cbn [heap set_heap].
  rewrite length_alter. unfold m1. rewrite strip_heap. apply length_alter.
Qed.

Lemma stage_keeps_inputs ps m k :
  k ∈ _inputKeys m → Forall (fun p => p ≠ _nextState m) ps →
  let m' := foldl (fun m p => _mutateTick p m) m ps in
  _nextState m' = _nextState m
  ∧ length (heap m') = length (heap m)
  ∧ deref (heap m') (_nextState m) !! k = deref (heap m) (_nextState m) !! k.
Proof.
  revert m. induction ps as [|p ps IH]; intros m Hk Hps; cbn [foldl]; [auto|].
  apply Forall_cons in Hps as [Hp Hps].
  destruct (IH (_mutateTick p m)) as (Hn & Hl & Hd).
  { rewrite _mutateTick_inputKeys. exact Hk. }
  { rewrite _mutateTick_nextState. exact Hps. }
  rewrite _mutateTick_nextState in Hn, Hd.
  rewrite Hn, Hl, Hd, _mutateTick_heap_length.
  auto using _mutateTick_keeps_inputs.
Qed.

Lemma _collectInputs_lookup m k :
  k ∈ map key (_inputs m) → is_Some (_collectInputs m !! k).
Proof.
  unfold _collectInputs.
  generalize (∅ : Obj).
  induction (_inputs m) as [|i ins IH]; intros o Hk; cbn [foldl].
  - inversion Hk.
  - destruct (decide (k ∈ map key ins)) as [Hin|Hnin]; [apply IH, Hin|].
    cbn [map] in Hk. apply elem_of_cons in Hk as [->|]; [|contradiction].
    clear IH.
    assert (H : ∀ o : Obj, is_Some (o !! key i) →
      is_Some (foldl
        (fun inputs input =>
           <[key input :=
               match transform input with
               | Some f => f (properties m (propertyKey input))
               | None => properties m (propertyKey input)
               end]> inputs) o ins !! key i)).
    { clear. induction ins as [|j ins IH]; intros o Ho; cbn [foldl]; [exact Ho|].
      apply IH. rewrite lookup_insert. case_decide; [eauto|exact Ho]. }
    apply H. rewrite lookup_insert_eq. eauto.
Qed.

(** A new pending state holds the inputs as they are collected then. *)
Lemma _beginTick_inputs m k :
  is_Some (_collectInputs m !! k) →
  deref (heap (_beginTick m)) (_nextState (_beginTick m)) !! k
  = _collectInputs m !! k.
Proof.
  intros Hk. unfold _beginTick, alloc.
  cbn [heap _nextState set_nextState set_heap].
  unfold deref. rewrite lookup_app_r, Nat.sub_diag by lia.
  cbn [lookup list_lookup default].
  unfold Object_assign. cbn [foldl]. apply lookup_union_l', Hk.
Qed.

(** Input protection, for partial states that are objects of their own:
    whatever is staged in a tick, the record that the tick commits holds,
    under each input key, the input collected when the tick began. *)
Lemma committed_inputs m ps k :
  _inputKeys m = map key (_inputs m) →
  k ∈ _inputKeys m →
  Forall (fun p => p ≠ _nextState (_beginTick m)) ps →
  Num.leb (Num.Fin 1) (limit m) = true →
  let m' := _nextTick (foldl (fun m p => _mutateTick p m) (_beginTick m) ps) in
  deref (heap m') (currentState m') !! k = _collectInputs m !! k.
Proof.
  intros Hkeys Hk Hps Hl m'.
  set (m1 := _beginTick m) in *.
  assert (Hk1 : k ∈ _inputKeys m1).
  { unfold m1. destruct (_beginTick_frame m) as [o ->]. exact Hk. }
  destruct (stage_keeps_inputs ps m1 k Hk1 Hps) as (Hn & Hlen & Hd).
  set (m2 := foldl (fun m p => _mutateTick p m) m1 ps) in *.
  assert (Hl2 : Num.leb (Num.Fin 1) (limit m2) = true).
  { unfold limit, m2. rewrite stage_maxHistory.
    unfold m1. destruct (_beginTick_frame m) as [o ->]. exact Hl. }
  assert (Hc : currentState m' = _nextState m1).
  { unfold m', currentState, last_record.
    rewrite _nextTick_records, retained_last by exact Hl2. exact Hn. }
  rewrite Hc. destruct (_nextTick_heap m2) as [o Ho]. fold m' in Ho.
  assert (Hlt : (_nextState m1 < length (heap m2))%nat).
  { rewrite Hlen. unfold m1. destruct (_beginTick_frame m) as [o' ->].
    cbn [heap _nextState set_nextState set_heap]. rewrite length_app. simpl. lia. }
  unfold deref at 1. rewrite Ho, lookup_app_l by exact Hlt.
  fold (deref (heap m2) (_nextState m1)). rewrite Hd.
  apply _beginTick_inputs, _collectInputs_lookup.
  rewrite <- Hkeys. exact Hk.
Qed.

End InputFacts.

(** * The properties of the specification *)

Import Scenario NumFacts ArrayFacts HistoryFacts RewindFacts StepFacts
  SortFacts ScenarioFacts InputFacts.

(** ** Rewinding past the window *)

(** C1, as the code has it: [rewind(n)] with [n] not finite, or greater
    than the retention limit, drops every record, sets the tick to 0 and
    leaves one record, which is the initial state itself; no object of the
    store changes.  The test is against the limit, not against the number
    of records held. *)
Theorem rewind_beyond_limit_resets n m :
  Num.isFinite n = false ∨ Num.ltb (limit m) n = true →
  let m' := rewind n None m in
  records m' = [initialState m']
  ∧ initialState m' = initialState m
  ∧ tick m' = 0
  ∧ ∀ l o, heap m !! l = Some o → heap m' !! l = Some o.
Proof.
  intros H m'.
  destruct (rewind_full_frame n m) as [o Ho].
  { unfold within_limit. destruct H as [-> | H]; [apply andb_false_r|].
    unfold limit in H. destruct n, (_maxHistory m); simpl in *;
      try (discriminate || reflexivity).
    apply Z.ltb_lt in H. rewrite andb_true_r. apply Z.leb_gt. exact H. }
  subst m'. rewrite Ho. repeat split.
  intros l x Hl. cbn [heap set_nextState set_heap set_records set_tick].
  apply lookup_app_l_Some, Hl.
Qed.

Lemma rewind_beyond_limit_resets_witness :
  let m := set_limit (Num.Fin 2) (steps scenarioA 3 machineA) in
  Num.ltb (limit m) (Num.Fin 5) = true
  ∧ records (rewind (Num.Fin 5) None m) = [initialState m]
  ∧ tick (rewind (Num.Fin 5) None m) = 0.
Proof.
  intros m.
  destruct (rewind_beyond_limit_resets (Num.Fin 5) m) as (Hr & Hi & Ht & _).
  - right. vm_compute. reflexivity.
  - split; [vm_compute; reflexivity|].
    split; [rewrite <- Hi; exact Hr|exact Ht].
Defined.

(** C1, as it is stated, fails: a machine that holds 3 records, with the
    limit left unbounded, keeps its 3 records when rewound by 7, and its
    tick goes from 3 to -4. *)
Lemma rewind_beyond_records_counterexample :
  let m := steps scenarioA 2 machineA in
  let m' := rewind (Num.Fin 7) None m in
  length (records m) = 3%nat
  ∧ Num.ltb (Num.of_nat (length (records m))) (Num.Fin 7) = true
  ∧ records m' = records m
  ∧ tick m' = -4
  ∧ ¬ (records m' = [initialState m'] ∧ tick m' = 0).
Proof.
  vm_compute. repeat split; try reflexivity.
  intros [_ H]. discriminate H.
Qed.

(** ** The flag of [run] *)

(** C2: [run(true)] and [run(false)] give the same result, for every
    program, machine and bound on the iterations; a tick in which nothing
    fires sets the exit state, so that both end with the first such tick
    and return the state which that tick has committed. *)
Theorem run_forever_flag_irrelevant program m :
  (∀ fuel, run program true fuel m = run program false fuel m)
  ∧ (fst (step program m) = 0%nat →
     exitState (snd (step program m))
     = Some (currentState (snd (step program m))))
  ∧ (∀ k, quiescent_at program k m →
       ∀ forever fuel, (k < fuel)%nat →
         run program forever fuel m
         = Some (currentState (steps program (S k) m), steps program (S k) m)).
Proof.
  split; [|split].
  - intros fuel. unfold run. rewrite run_loop_flag. reflexivity.
  - apply step_zero_exits.
  - intros k Hq forever fuel Hk. unfold run.
    destruct (run_loop_quiescent program k m Hq forever fuel Hk) as [-> ->].
    reflexivity.
Qed.

Lemma run_forever_flag_irrelevant_witness :
  let m' := steps count_to_3 4 machineA in
  quiescent_at count_to_3 3 machineA
  ∧ run count_to_3 true 4 machineA = Some (currentState m', m')
  ∧ run count_to_3 false 4 machineA = Some (currentState m', m')
  ∧ counter (deref (heap m') (currentState m')) = 3.
Proof.
  intros m'.
  assert (Hq : quiescent_at count_to_3 3 machineA).
  { split; [|split; vm_compute; reflexivity].
    intros i Hi. destruct i as [|[|[|i]]]; [| | |lia];
      (split; [vm_compute; reflexivity|vm_compute; discriminate]). }
  destruct (run_forever_flag_irrelevant count_to_3 machineA) as (_ & _ & Hrun).
  split; [exact Hq|].
  split; [apply (Hrun 3%nat Hq true 4%nat); lia|].
  split; [apply (Hrun 3%nat Hq false 4%nat); lia|].
  vm_compute. reflexivity.
Defined.

(** ** Scenario B *)

(** C3, as the code has it: in scenario B the first three calls of [step]
    fire the increment alone; in the fourth, the increment fires first and
    the halt second, so that [step] returns 2; the exit state is the state
    the tick started from, with [counter == 3], and the tick commits
    [counter == 4]. *)
Theorem scenarioB_fourth_step :
  let m3 := steps scenarioB 3 machineA in
  let m4 := snd (step scenarioB m3) in
  map (fun n => fst (step scenarioB (steps scenarioB n machineA))) [0; 1; 2]%nat
  = [1; 1; 1]%nat
  ∧ exitState m3 = None
  ∧ fst (step scenarioB m3) = 2%nat
  ∧ exitState m4 = Some (currentState m3)
  ∧ counter (deref (heap m4) (currentState m3)) = 3
  ∧ counter (deref (heap m4) (currentState m4)) = 4.
Proof. vm_compute. repeat split; reflexivity. Qed.

(** C3, as it is stated, fails: the fourth call does not return 1. *)
Lemma scenarioB_fourth_step_counterexample :
  fst (step scenarioB (steps scenarioB 3 machineA)) ≠ 1%nat.
Proof. vm_compute. discriminate. Qed.

(** ** Input keys *)

(** C4 fails on the code when an action returns an object of the engine.
    The machine has the input key [sensor], whose input is 7, and one
    record.  With the action [state => state], [_mutateTick] deletes
    [sensor] from the record the state is; with the action that returns
    [history.nextState], it deletes [sensor] from the pending state, and
    the record that the tick commits has no [sensor]. *)
Theorem returned_state_loses_input :
  let sensor_of m := map (fun l => deref (heap m) l !! "sensor") (records m) in
  let m1 := snd (step (only same_state) machineI) in
  let m2 := snd (step (only pending_state) machineI) in
  _inputKeys machineI = ["sensor"]
  ∧ _collectInputs machineI !! "sensor" = Some (VNumber 7)
  ∧ sensor_of machineI = [Some (VNumber 7)]
  ∧ sensor_of m1 = [None; Some (VNumber 7)]
  ∧ sensor_of m2 = [Some (VNumber 7); None]
  ∧ deref (heap m2) (currentState m2) !! "sensor" = None
  ∧ _collectInputs m2 !! "sensor" = Some (VNumber 7).
Proof. vm_compute. repeat split; reflexivity. Qed.

(** ** The order within a tick *)

Module OrderFacts.
Import Scenario NumFacts HistoryFacts StepFacts SortFacts InputFacts.

Lemma normalized_or_zero n : Num.or_zero n = normalized n.
Proof. destruct n as [[| |]| | |]; reflexivity. Qed.

Lemma normalized_comparable n : normalized n ≠ Num.NaN.
Proof. destruct n; discriminate. Qed.

Lemma registered_priority_comparable s p m :
  registered_priority s p m ≠ Num.NaN.
Proof.
  destruct p; cbn; try apply normalized_comparable. discriminate.
Qed.

Lemma resolve_priority_fst s p m :
  fst (resolve_priority s p m) = registered_priority s p m.
Proof.
  destruct p as [n|f|]; cbn.
  - apply normalized_or_zero.
  - destruct (f s m) as [n m1]. cbn. apply normalized_or_zero.
  - reflexivity.
Qed.

(** Resolving the entries calls their priority functions in turn. *)
Lemma resolve_snd s program m :
  snd (resolve s program m) = call_priorities s program m.
Proof.
  revert m. induction program as [|[cond entry] program IH]; intros m;
    [reflexivity|].
  cbn [resolve call_priorities foldl snd].
  assert (H1 : snd (resolve_priority s (priority entry) m)
               = match priority entry with
                 | PriorityFunction f => snd (f s m)
                 | _ => m
                 end).
  { destruct (priority entry) as [n|f|]; cbn; try reflexivity.
    destruct (f s m); reflexivity. }
  destruct (resolve_priority s (priority entry) m) as [p m1].
  cbn [snd] in H1. subst m1.
  specialize (IH (match priority entry with
                  | PriorityFunction f => snd (f s m)
                  | _ => m
                  end)).
  destruct (resolve s program _) as [rest m2]. cbn [snd] in *. exact IH.
Qed.

Lemma resolve_fst s program m :
  fst (resolve s program m) = registered s program m.
Proof.
  rewrite resolve_imap. unfold registered. apply imap_ext.
  intros i e _. unfold resolved_entry.
  rewrite resolve_priority_fst, resolve_snd. reflexivity.
Qed.

(** ** Sorting by a key *)

Section KeySort.
Context {A : Type} (sort_key : A → Num.t).

#[local] Abbreviation by_this_key := (by_key sort_key).

Lemma before_by_key y x :
  Array.before by_this_key y x = Num.ltb (sort_key y) (sort_key x).
Proof. apply ltb_sub_zero. Qed.

Lemma key_insert_perm x l : Permutation (Array.insert by_this_key x l) (x :: l).
Proof.
  induction l as [|y l IH]; simpl; [reflexivity|].
  destruct (Array.before by_this_key y x); [|reflexivity].
  rewrite IH. apply perm_swap.
Qed.

Lemma key_sort_perm l : Permutation (Array.sort by_this_key l) l.
Proof.
  induction l as [|x l IH]; simpl; [reflexivity|].
  rewrite key_insert_perm. constructor. exact IH.
Qed.

Lemma key_insert_filter k x l :
  filter (fun a => sort_key a = k) (Array.insert by_this_key x l)
  = filter (fun a => sort_key a = k) (x :: l).
Proof.
  induction l as [|y l IH]; simpl; [reflexivity|].
  rewrite before_by_key.
  destruct (Num.ltb (sort_key y) (sort_key x)) eqn:E; [|reflexivity].
  rewrite (filter_cons _ y), IH, !filter_cons.
  destruct (decide (sort_key y = k)) as [Hy|]; [|reflexivity].
  destruct (decide (sort_key x = k)) as [Hx|]; [|reflexivity].
  rewrite Hy, Hx, ltb_irrefl in E. discriminate.
Qed.

Lemma key_sort_stable k l :
  filter (fun a => sort_key a = k) (Array.sort by_this_key l)
  = filter (fun a => sort_key a = k) l.
Proof.
  induction l as [|x l IH]; simpl; [reflexivity|].
  rewrite key_insert_filter, !filter_cons, IH. reflexivity.
Qed.

(** Sorting commutes with resolving, when the key is the priority. *)
Lemma key_insert_map (g : A → Resolved) x l :
  (∀ a, r_priority (g a) = sort_key a) →
  map g (Array.insert by_this_key x l) = Array.insert by_priority (g x) (map g l).
Proof.
  intros Hg. induction l as [|y l IH]; simpl; [reflexivity|].
  rewrite before_by_key, before_by_priority, !Hg.
  destruct (Num.ltb (sort_key y) (sort_key x)); simpl; [|reflexivity].
  rewrite IH. reflexivity.
Qed.

Lemma key_sort_map (g : A → Resolved) l :
  (∀ a, r_priority (g a) = sort_key a) →
  map g (Array.sort by_this_key l) = Array.sort by_priority (map g l).
Proof.
  intros Hg. induction l as [|x l IH]; simpl; [reflexivity|].
  rewrite key_insert_map by exact Hg. rewrite IH. reflexivity.
Qed.

Lemma key_sort_sorted (g : A → Resolved) l :
  (∀ a, r_priority (g a) = sort_key a) →
  (∀ a, sort_key a ≠ Num.NaN) →
  Sorted (fun a b => Num.leb (sort_key a) (sort_key b) = true)
    (Array.sort by_this_key l).
Proof.
  intros Hg Hc.
  assert (Hs : Sorted priority_le (map g (Array.sort by_this_key l))).
  { rewrite key_sort_map by exact Hg. apply sort_sorted.
    apply Forall_forall. intros r Hr.
    apply list_elem_of_fmap in Hr as (a & -> & _).
    unfold comparable. rewrite Hg. apply Hc. }
  induction (Array.sort by_this_key l) as [|a s IH]; [constructor|].
  cbn [map] in Hs. apply Sorted_inv in Hs as [Hs Hhd].
  constructor; [apply IH, Hs|].
  destruct s as [|b s]; constructor.
  cbn [map] in Hhd. apply HdRel_inv in Hhd.
  unfold priority_le in Hhd. rewrite !Hg in Hhd. exact Hhd.
Qed.

End KeySort.

(** ** The loop, entry by entry *)

(** While the tick is the one captured and no exit state is set, the
    loop evaluates the entry at its head and goes on with the rest. *)
Lemma step_loop_evaluate currentTick r acts fired m :
  tick m = currentTick → exitState m = None →
  step_loop currentTick (r :: acts) fired m
  = step_loop currentTick acts (fst (evaluate r fired m))
      (snd (evaluate r fired m)).
Proof.
  intros Ht Hx. cbn [step_loop]. rewrite Ht, Z.eqb_refl, Hx.
  cbn [negb andb is_set]. unfold evaluate.
  destruct (r_cond r (currentState m) m) as [[] ma]; [|reflexivity].
  destruct (r_action r (currentState ma) ma) as [[p|] mb]; reflexivity.
Qed.

(** ** The loop over traced entries *)

(** What is staged reaches the pending state, input keys apart. *)
Lemma _mutateTick_pending p m k :
  p ≠ _nextState m → k ∉ _inputKeys m →
  (_nextState m < length (heap m))%nat →
  deref (heap (_mutateTick p m)) (_nextState m) !! k
  = deref (heap m) p !! k ∪ deref (heap m) (_nextState m) !! k.
Proof.
  intros Hp Hk Hn. unfold _mutateTick.
  set (m1 := foldl (fun m k => mutate_object p (delete k) m) m (_inputKeys m)).
  assert (Hn1 : _nextState m1 = _nextState m)
    by (unfold m1; rewrite strip_frame; reflexivity).
  assert (Hh1 : heap m1 = alter (fun o : Obj =>
                           foldl (fun o k => delete k o) o (_inputKeys m))
                    p (heap m)) by apply strip_heap.
  assert (Hstrip : ∀ (ks : list string) (o : Obj),
            k ∉ ks → foldl (fun o k => delete k o) o ks !! k = o !! k).
  { induction ks as [|k' ks IH]; intros o Hks; cbn [foldl]; [reflexivity|].
    apply not_elem_of_cons in Hks as [Hne Hks].
    rewrite IH by exact Hks. apply lookup_delete_ne. congruence. }
  assert (Hd : deref (heap m1) p !! k = deref (heap m) p !! k).
  { unfold deref. rewrite Hh1, list_lookup_alter_eq.
    destruct (heap m !! p) as [o|]; cbn; [|reflexivity].
    apply Hstrip, Hk. }
  destruct (lookup_lt_is_Some_2 (heap m) (_nextState m) Hn) as [o_n Hon].
  unfold mutate_object. cbn [heap set_heap]. rewrite Hn1.
  assert (Hlook : heap m1 !! _nextState m = Some o_n).
  { rewrite Hh1, list_lookup_alter_ne by exact Hp. exact Hon. }
  unfold deref at 1. rewrite list_lookup_alter_eq, Hlook. cbn [fmap option_fmap option_map default]. unfold id.
  unfold Object_assign. cbn [foldl]. rewrite lookup_union, Hd.
  unfold deref. rewrite Hon. reflexivity.
Qed.

(** One traced entry: the digit is appended to the trace of the pending
    state, and the history is left alone. *)
Lemma evaluate_traced r d fired m :
  r_cond r = always_true → r_action r = push_digit d →
  (_nextState m < length (heap m))%nat →
  "trace" ∉ _inputKeys m →
  ∃ m',
    evaluate r fired m = (S fired, m')
    ∧ tick m' = tick m ∧ exitState m' = exitState m
    ∧ _nextState m' = _nextState m
    ∧ (_nextState m' < length (heap m'))%nat
    ∧ _inputKeys m' = _inputKeys m
    ∧ _records m' = _records m
    ∧ _maxHistory m' = _maxHistory m
    ∧ trace_at m' (_nextState m') = 10 * trace_at m (_nextState m) + d.
Proof.
  intros Hc Ha Hn Hk. unfold evaluate. rewrite Hc, Ha.
  unfold always_true, push_digit, alloc, nextState.
  set (o := ({[ "trace" := VNumber
                  (10 * number_at "trace" (deref (heap m) (_nextState m)) + d) ]}
             : Obj)).
  set (m1 := set_heap (fun h => h ++ [o]) m).
  eexists. split; [reflexivity|].
  assert (Hn1 : (_nextState m1 < length (heap m1))%nat).
  { unfold m1. cbn [heap _nextState set_heap]. rewrite length_app. cbn. lia. }
  assert (Hp : length (heap m) ≠ _nextState m1).
  { unfold m1. cbn [_nextState set_heap]. lia. }
  assert (Hk1 : "trace" ∉ _inputKeys m1) by exact Hk.
  pose proof (_mutateTick_pending (length (heap m)) m1 "trace" Hp Hk1 Hn1) as Hl.
  unfold tick, exitState.
  rewrite _mutateTick_tick, _mutateTick_exitState, _mutateTick_nextState,
    _mutateTick_inputKeys, _mutateTick_records, _mutateTick_maxHistory,
    _mutateTick_heap_length.
  repeat (split; [first [reflexivity|exact Hn1]|]).
  unfold trace_at, number_at. rewrite Hl.
  assert (Ho : deref (heap m1) (length (heap m)) = o).
  { unfold deref, m1. cbn [heap set_heap].
    rewrite lookup_app_r, Nat.sub_diag by lia. reflexivity. }
  rewrite Ho. unfold o. rewrite lookup_singleton_eq, union_Some_l. reflexivity.
Qed.

(** The loop over traced entries: every one fires, in the order of the
    list. *)
Lemma step_loop_traced currentTick acts ds :
  Forall2 (fun r d => r_cond r = always_true ∧ r_action r = push_digit d)
    acts ds →
  ∀ fired m,
    tick m = currentTick → exitState m = None →
    (_nextState m < length (heap m))%nat →
    "trace" ∉ _inputKeys m →
    ∃ m',
      step_loop currentTick acts fired m
      = Exhausted (fired + length ds) m'
      ∧ _nextState m' = _nextState m
      ∧ (_nextState m' < length (heap m'))%nat
      ∧ _records m' = _records m
      ∧ _maxHistory m' = _maxHistory m
      ∧ trace_at m' (_nextState m')
        = trace_of ds (trace_at m (_nextState m)).
Proof.
  induction 1 as [|r d acts ds [Hc Ha] Hrest IH]; intros fired m Ht Hx Hn Hk.
  - exists m. cbn. rewrite Nat.add_0_r. repeat split. exact Hn.
  - destruct (evaluate_traced r d fired m Hc Ha Hn Hk)
      as (m1 & He & Ht1 & Hx1 & Hn1 & Hlt1 & Hk1 & Hr1 & Hl1 & Htr1).
    destruct (IH (S fired) m1) as (m' & Hloop & Hn' & Hlt' & Hr' & Hl' & Htr').
    { rewrite Ht1. exact Ht. }
    { rewrite Hx1. exact Hx. }
    { rewrite Hn1 in Hlt1. rewrite Hn1. exact Hlt1. }
    { rewrite Hk1. exact Hk. }
    exists m'. split.
    + rewrite (step_loop_evaluate _ _ _ _ _ Ht Hx), He. cbn [fst snd].
      rewrite Hloop. f_equal. cbn [length]. lia.
    + split; [rewrite Hn', Hn1; reflexivity|].
      split; [exact Hlt'|].
      split; [rewrite Hr', Hr1; reflexivity|].
      split; [rewrite Hl', Hl1; reflexivity|].
      rewrite Htr', Htr1. reflexivity.
Qed.

(** Priorities that do nothing to the machine. *)
Lemma call_priorities_pure s (entries : list (Z * Priority)) m :
  Forall (fun e : Z * Priority =>
            ∀ f, snd e = PriorityFunction f → ∀ s m, snd (f s m) = m)
    entries →
  ∀ i, call_priorities s (take i (map traced entries)) m = m.
Proof.
  intros Hp i. rewrite <- fmap_take.
  assert (Hp' : Forall (fun e : Z * Priority =>
                  ∀ f, snd e = PriorityFunction f → ∀ s m, snd (f s m) = m)
                  (take i entries)) by (apply Forall_take, Hp).
  induction Hp' as [|e l He Hl IH]; [reflexivity|].
  cbn [fmap list_fmap call_priorities foldl traced priority snd].
  destruct (snd e) as [n|f|] eqn:E; try exact IH.
  rewrite (He f eq_refl). exact IH.
Qed.

End OrderFacts.

Import OrderFacts.

(** C5: within a tick the entries are evaluated in ascending order of
    their resolved priority, and entries of one priority in the order of
    their registration.

    For every program and machine: before the loop the priority
    functions are called in the order of registration, each one once,
    with the state at the start of the tick; the priority of an entry is
    its number, or the result of its function, with NaN and falsy values
    counted as 0.  The list that the loop walks is a permutation of the
    entries, ascending in these priorities, with the entries of one
    priority in the order of their registration; and the loop evaluates
    it from the front: as long as the tick is the one captured and no
    exit state is set, the next entry is evaluated in the machine that the
    entries before it have left.

    Made visible: for entries whose conditions hold and whose actions
    append their digit to the field [trace] of the pending state, with
    any priorities (numbers, none, or functions that leave the machine
    alone), every entry fires, and the state that the tick commits holds
    the digits in ascending order of priority, ties in the order of
    registration. *)
Theorem step_priority_order :
  (∀ program m,
     let m0 := step_begin m in
     let s := currentState m0 in
     let actions := actions_of program m in
     let m1 := machine_at_loop program m in
     m1 = call_priorities s program m0
     ∧ Permutation actions (registered s program m0)
     ∧ Sorted priority_le actions
     ∧ (∀ p, with_priority p actions
             = with_priority p (registered s program m0))
     ∧ step program m = step_end (step_loop (tick m0) actions 0 m1)
     ∧ ∀ pre e rest fired m',
         actions = pre ++ e :: rest →
         step_loop (tick m0) pre 0 m1 = Exhausted fired m' →
         tick m' = tick m0 → exitState m' = None →
         step_loop (tick m0) (pre ++ [e]) 0 m1
         = Exhausted (fst (evaluate e fired m')) (snd (evaluate e fired m')))
  ∧ (∀ (entries : list (Z * Priority)) m,
       1 ≤ tick m → exitState m = None →
       Num.leb (Num.Fin 1) (limit m) = true →
       (nextState m < length (heap m))%nat →
       "trace" ∉ _inputKeys m →
       Forall (fun e : Z * Priority =>
                 ∀ f, snd e = PriorityFunction f → ∀ s m, snd (f s m) = m)
         entries →
       let m' := snd (step (map traced entries) m) in
       ∃ order,
         Permutation order entries
         ∧ Sorted (fun a b => Num.leb (trace_key m a) (trace_key m b) = true)
             order
         ∧ (∀ k, filter (fun e => trace_key m e = k) order
                 = filter (fun e => trace_key m e = k) entries)
         ∧ fst (step (map traced entries) m) = length entries
         ∧ trace_at m' (currentState m')
           = trace_of (map fst order) (trace_at m (nextState m))).
Proof.
  split.
  - intros program m m0 s actions m1.
    assert (Ha : actions = Array.sort by_priority (registered s program m0)).
    { unfold actions, actions_of, sorted_actions. fold m0. fold s.
      rewrite <- resolve_fst.
      destruct (resolve s program m0). reflexivity. }
    assert (Hm : m1 = call_priorities s program m0).
    { unfold m1, machine_at_loop, sorted_actions. fold m0. fold s.
      rewrite <- resolve_snd.
      destruct (resolve s program m0). reflexivity. }
    split; [exact Hm|].
    split; [rewrite Ha; apply sort_perm|].
    split.
    { rewrite Ha. apply sort_sorted. rewrite <- resolve_fst.
      apply resolve_comparable. }
    split; [intros p; rewrite Ha; apply sort_stable|].
    split; [apply step_unfold|].
    intros pre e rest fired m' _ Hpre Ht Hx.
    rewrite step_loop_app, Hpre.
    rewrite (step_loop_evaluate _ _ _ _ _ Ht Hx). reflexivity.
  - intros entries m Ht Hx Hl Hn Hk Hp m'.
    assert (Hb : step_begin m = m).
    { unfold step_begin. destruct (Z.ltb_spec (tick m) 1); [lia|reflexivity]. }
    set (s := currentState m).
    assert (Hreg : registered s (map traced entries) m
                   = map (traced_resolved m) entries).
    { unfold registered. change (map traced entries) with (traced <$> entries).
      rewrite imap_fmap.
      change (map (traced_resolved m) entries)
        with (traced_resolved m <$> entries).
      rewrite <- (imap_const (traced_resolved m) entries).
      apply imap_ext. intros i e _. cbn [compose].
      change (traced <$> entries) with (map traced entries).
      rewrite call_priorities_pure by exact Hp. reflexivity. }
    assert (Hm1 : machine_at_loop (map traced entries) m = m).
    { unfold machine_at_loop, sorted_actions. rewrite Hb. fold s.
      pose proof (resolve_snd s (map traced entries) m) as Hs.
      destruct (resolve s (map traced entries) m) as [r mr]. cbn [snd] in *.
      rewrite Hs.
      rewrite <- (take_ge (map traced entries) (length (map traced entries)))
        at 1 by lia.
      apply call_priorities_pure, Hp. }
    set (order := Array.sort (by_key (trace_key m)) entries).
    assert (Hact : actions_of (map traced entries) m
                   = map (traced_resolved m) order).
    { unfold actions_of, sorted_actions. rewrite Hb. fold s.
      pose proof (resolve_fst s (map traced entries) m) as Hf.
      destruct (resolve s (map traced entries) m) as [r mr]. cbn [fst] in *.
      rewrite Hf, Hreg. unfold order. symmetry.
      apply key_sort_map. reflexivity. }
    assert (Hperm : Permutation order entries) by apply key_sort_perm.
    assert (Hlen : length order = length entries)
      by (apply Permutation_length, Hperm).
    exists order.
    split; [exact Hperm|].
    split.
    { apply (key_sort_sorted (trace_key m) (traced_resolved m)); [reflexivity|].
      intros a. apply registered_priority_comparable. }
    split; [intros k; apply key_sort_stable|].
    assert (Hf2 : ∀ l : list (Z * Priority),
                    Forall2 (fun r d => r_cond r = always_true
                                        ∧ r_action r = push_digit d)
                      (map (traced_resolved m) l) (map fst l)).
    { induction l as [|e l IH]; constructor; [split; reflexivity|exact IH]. }
    destruct (step_loop_traced (tick m) _ _ (Hf2 order) 0%nat m eq_refl Hx Hn Hk)
      as (mL & Hloop & HnL & HltL & HrL & HlL & HtrL).
    assert (Hstep : step (map traced entries) m
                    = step_end (Exhausted (length entries) mL)).
    { rewrite step_unfold, Hb, Hact, Hm1, Hloop.
      rewrite length_map, Hlen. reflexivity. }
    assert (Hcur : ∀ mx, _records mx = _records (_nextTick mL) →
                         currentState mx = _nextState mL).
    { intros mx Hmx. unfold currentState, last_record.
      rewrite Hmx, _nextTick_records, retained_last; [reflexivity|].
      rewrite HlL. exact Hl. }
    assert (Hheap : ∀ mx, heap mx = heap (_nextTick mL) →
                          trace_at mx (_nextState mL)
                          = trace_at mL (_nextState mL)).
    { intros mx Hmx. unfold trace_at, deref. rewrite Hmx.
      destruct (_nextTick_heap mL) as [o ->].
      rewrite lookup_app_l by exact HltL. reflexivity. }
    split.
    { rewrite Hstep. cbn [step_end]. destruct (_ =? _)%nat; reflexivity. }
    subst m'. rewrite Hstep. cbn [step_end].
    unfold nextState. rewrite <- HtrL.
    destruct (length entries =? 0)%nat; cbn [snd];
      [rewrite (Hcur (set_exitState (Some (currentState (_nextTick mL)))
                        (_nextTick mL)) eq_refl)
      |rewrite (Hcur (_nextTick mL) eq_refl)];
      apply Hheap; reflexivity.
Qed.

Lemma step_priority_order_witness :
  let entries :=
    [(1, PriorityNumber (Num.Fin 1)); (2, PriorityNumber (Num.Fin 0));
     (3, PriorityNumber (Num.Fin 1)); (4, PriorityNumber Num.NaN)] in
  let m' := snd (step (map traced entries) machineA) in
  (∃ order,
     Permutation order entries
     ∧ Sorted (fun a b => Num.leb (trace_key machineA a)
                            (trace_key machineA b) = true) order
     ∧ (∀ k, filter (fun e => trace_key machineA e = k) order
             = filter (fun e => trace_key machineA e = k) entries)
     ∧ fst (step (map traced entries) machineA) = 4%nat
     ∧ trace_at m' (currentState m')
       = trace_of (map fst order) (trace_at machineA (nextState machineA)))
  ∧ trace_at machineA (nextState machineA) = 0
  ∧ trace_at m' (currentState m') = 2413.
Proof.
  intros entries m'.
  destruct step_priority_order as [_ H].
  split.
  - apply (H entries machineA).
    + vm_compute. discriminate.
    + reflexivity.
    + reflexivity.
    + vm_compute. lia.
    + vm_compute. apply not_elem_of_nil.
    + repeat constructor; discriminate.
  - split; vm_compute; reflexivity.
Defined.

(** Entries registered with the priorities 5, 1 and 3 fire in the order
    1, 3, 5; of four entries registered with the priorities 1, 0, 1, 0,
    the second and the fourth fire first, then the first and the third. *)
Example priorities_in_order :
  let trace program :=
    number_at "trace"
      (deref (heap (snd (step program machineA)))
             (currentState (snd (step program machineA)))) in
  map r_priority (actions_of priorities_5_1_3 machineA)
  = [Num.Fin 1; Num.Fin 3; Num.Fin 5]
  ∧ trace priorities_5_1_3 = 135
  ∧ trace priorities_tied = 2413.
Proof. vm_compute. repeat split; reflexivity. Qed.

(** ** A rewind in the middle of a tick *)

(** C6, as the code has it: the test for a rewind is made when the loop
    comes to an entry.  When, after some entries of the tick, the tick
    counter is no longer the one captured at the start and no exit state
    is set, [step] returns [max(1, fired)], which is not 0.  If entries
    remain, it returns at once: none of them is evaluated and the
    pending tick is not committed, the machine is left as the rewind has
    left it.  If the rewinding action was that of the last entry, the loop
    is over: the tick is committed and the count, at least 1, is
    returned. *)
Theorem step_aborts_on_rewind program m pre rest fired m' :
  actions_of program m = pre ++ rest →
  step_loop (tick (step_begin m)) pre 0 (machine_at_loop program m)
  = Exhausted fired m' →
  tick m' ≠ tick (step_begin m) →
  exitState m' = None →
  rest ≠ [] ∨ (1 ≤ fired)%nat →
  fst (step program m) = Nat.max 1 fired
  ∧ fst (step program m) ≠ 0%nat
  ∧ (rest ≠ [] → snd (step program m) = m')
  ∧ (rest = [] → snd (step program m) = _nextTick m').
Proof.
  intros Ha Hpre Ht He Hrest.
  rewrite step_unfold, Ha, step_loop_app, Hpre.
  destruct rest as [|e rest].
  - destruct Hrest as [Hrest|Hf]; [contradiction|].
    cbn [step_loop step_end].
    destruct (Nat.eqb_spec fired 0) as [->|Hne]; [lia|].
    cbn [fst snd]. repeat split; try lia. intros H. contradiction.
  - rewrite step_loop_rewound.
    + cbn [step_end fst snd]. repeat split; try lia. discriminate.
    + unfold rewound. rewrite He.
      destruct (Z.eqb_spec (tick m') (tick (step_begin m)));
        [contradiction|reflexivity].
Qed.

Lemma step_aborts_on_rewind_witness :
  let m' := rewind (Num.Fin 1) None machineA in
  length (drop 1 (actions_of scenarioC machineA)) = 2%nat
  ∧ tick machineA = 1 ∧ tick m' = 0
  ∧ fst (step scenarioC machineA) = 1%nat
  ∧ snd (step scenarioC machineA) = m'.
Proof.
  intros m'.
  destruct (step_aborts_on_rewind scenarioC machineA
              (take 1 (actions_of scenarioC machineA))
              (drop 1 (actions_of scenarioC machineA)) 1%nat m')
    as (H1 & _ & H3 & _).
  - symmetry. apply take_drop.
  - vm_compute. reflexivity.
  - vm_compute. discriminate.
  - vm_compute. reflexivity.
  - left. intros H. apply (f_equal length) in H. vm_compute in H. discriminate H.
  - split; [vm_compute; reflexivity|].
    split; [vm_compute; reflexivity|].
    split; [vm_compute; reflexivity|].
    split; [exact H1|].
    apply H3. intros H. apply (f_equal length) in H. vm_compute in H.
    discriminate H.
Defined.

(** A rewind by the last entry of the tick is not seen by the loop: the
    tick is committed on top of the rewound history. *)
Example rewind_by_last_entry :
  let m := snd (step (only rewind_once) machineA) in
  fst (step (only rewind_once) machineA) = 1%nat
  ∧ tick m = 1 ∧ length (records m) = 2%nat ∧ exitState m = None.
Proof. vm_compute. repeat split; reflexivity. Qed.

(** C6 fails as it is stated when the action that rewinds belongs to the
    last entry of the tick.  The machine has run two ticks of scenario A
    (tick 3, three records) and its program is the one entry that
    rewinds by 1.  The loop leaves the machine as the rewind has left it,
    at tick 2 with one record, and no exit state is set; but [step] does
    not return that machine: it commits the pending state on top of it,
    and the machine it leaves is at tick 3 with two records. *)
Lemma step_commits_after_last_rewind_counterexample :
  let m := steps scenarioA 2 machineA in
  let m_rewound := rewind (Num.Fin 1) None m in
  step_loop (tick (step_begin m)) (actions_of (only rewind_once) m) 0
    (machine_at_loop (only rewind_once) m)
  = Exhausted 1 m_rewound
  ∧ tick m = 3 ∧ tick m_rewound = 2 ∧ exitState m_rewound = None
  ∧ length (records m_rewound) = 1%nat
  ∧ fst (step (only rewind_once) m) = 1%nat
  ∧ snd (step (only rewind_once) m) ≠ m_rewound
  ∧ tick (snd (step (only rewind_once) m)) = 3
  ∧ length (records (snd (step (only rewind_once) m))) = 2%nat.
Proof.
  intros m m_rewound.
  split; [vm_compute; reflexivity|].
  split; [vm_compute; reflexivity|].
  split; [vm_compute; reflexivity|].
  split; [vm_compute; reflexivity|].
  split; [vm_compute; reflexivity|].
  split; [vm_compute; reflexivity|].
  split.
  { intros H. apply (f_equal tick) in H. vm_compute in H. discriminate H. }
  split; vm_compute; reflexivity.
Qed.

(** ** Ticks and records *)

(** C7, as the code has it: in scenario A every call of [step] returns 1;
    the constructor has committed the first record and set the tick to 1,
    so that after [n] calls the tick is [n + 1], there are [n + 1] records
    and the counter is [n]; after 3 calls the counter is 3 and the tick is
    4.  For every machine as the constructor leaves it, with its limit
    set to an integer or to an infinity (a limit below 1 counts as 1),
    [n] commits lead to [tick == n + 1] and
    [records.length == min(n + 1, limit)].  The limit is a number of
    [Num.t] other than NaN: with NaN nothing is trimmed, and a fraction
    is outside the statement. *)
Theorem scenarioA_ticks :
  let m3 := steps scenarioA 3 machineA in
  (∀ n, let m := steps scenarioA n machineA in
        fst (step scenarioA m) = 1%nat
        ∧ tick m = Z.of_nat n + 1
        ∧ length (records m) = S n
        ∧ counter (deref (heap m) (currentState m)) = Z.of_nat n)
  ∧ counter (deref (heap m3) (currentState m3)) = 3
  ∧ tick m3 = 4
  ∧ ∀ instance init inputs l stages,
      l ≠ Num.NaN →
      let m := set_limit l (HistoryManager.new instance init inputs) in
      tick (commits stages m) = Z.of_nat (length stages) + 1
      ∧ Num.of_nat (length (records (commits stages m)))
        = Num.min (Num.of_nat (length stages + 1)) (limit m).
Proof.
  intros m3. split; [|split; [|split]].
  - intros n m.
    destruct (scenarioA_invariant n) as (He & Ht & Hr & _ & _ & _ & Hc).
    fold m in He, Ht, Hr, Hc.
    split; [|split; [|split]]; try assumption.
    rewrite (step_scenarioA _ He). reflexivity.
  - destruct (scenarioA_invariant 3) as (_ & _ & _ & _ & _ & _ & Hc).
    exact Hc.
  - destruct (scenarioA_invariant 3) as (_ & Ht & _). exact Ht.
  - intros instance init inputs l stages Hl m.
    destruct (new_counts instance init inputs) as (Ht & Hr & _).
    destruct (set_limit_single l _ Hl Hr) as (Ht' & Hr' & H1).
    fold m in Ht', Hr', H1.
    destruct (commits_count stages m H1) as (Hc & _ & Hn).
    { rewrite Hr', Hr. exact H1. }
    rewrite Hc, Hn, Ht', Hr', Ht, Hr. split; [lia|].
    f_equal. f_equal. lia.
Qed.

Lemma scenarioA_ticks_witness :
  let m := set_limit (Num.Fin 2) machineA in
  let m' := commits [[]; []; []] m in
  Num.Fin 2 ≠ Num.NaN
  ∧ tick m' = 4
  ∧ Num.of_nat (length (records m')) = Num.Fin 2.
Proof.
  intros m m'.
  destruct scenarioA_ticks as (_ & _ & _ & H).
  destruct (H no_properties {[ "counter" := VNumber 0 ]} [] (Num.Fin 2)
              [[]; []; []]) as [Ht Hr].
  - discriminate.
  - split; [discriminate|]. split; [exact Ht|].
    etransitivity; [exact Hr|]. vm_compute. reflexivity.
Defined.

(** C7, as it is stated, fails: after 3 calls the tick is not 3, and from
    the constructor on no [n] gives [tick == n] together with
    [records.length == n + 1]. *)
Lemma scenarioA_tick_counterexample :
  tick (steps scenarioA 3 machineA) ≠ 3
  ∧ tick machineA = 1 ∧ length (records machineA) = 1%nat.
Proof. vm_compute. repeat split; try reflexivity. discriminate. Qed.

(** Counted from a full rewind, the commits do give [tick == n] and
    [records.length == min(n + 1, limit)]. *)
Lemma commits_after_clear m stages :
  Num.leb (Num.Fin 1) (limit m) = true →
  tick (commits stages (clear m)) = Z.of_nat (length stages)
  ∧ Num.of_nat (length (records (commits stages (clear m))))
    = Num.min (Num.of_nat (length stages + 1)) (limit m).
Proof.
  intros Hl.
  destruct (rewind_full_frame Num.PosInf m) as [o Hf].
  { unfold within_limit. apply andb_false_r. }
  fold (clear m) in Hf.
  assert (Ht : tick (clear m) = 0) by (rewrite Hf; reflexivity).
  assert (Hr : records (clear m) = [_initialState m]) by (rewrite Hf; reflexivity).
  assert (Hm : limit (clear m) = limit m) by (rewrite Hf; reflexivity).
  destruct (commits_count stages (clear m)) as (Hc & _ & Hn).
  { rewrite Hm. exact Hl. }
  { rewrite Hm, Hr. exact Hl. }
  rewrite Hc, Hn, Ht, Hr, Hm. split; [lia|].
  f_equal. f_equal. cbn [length]. lia.
Qed.

(** ** Rewinding by a number of ticks *)

(** C8 fails on the code.  After 5 commits (the constructor's and four
    calls of [step]) the tick is 5 and the records hold the counters 0 to
    4; [rewind(2)] takes the tick to 3 but keeps 2 records, the two oldest
    ones, not the 3 that lead up to tick 3.  After one more call of [step]
    it keeps the same 2 records, with tick 4.  A rewind without bound does
    leave one record, the initial state, and tick 0. *)
Theorem rewind_two_after_five_commits :
  let m5 := steps scenarioA 4 machineA in
  let m6 := steps scenarioA 5 machineA in
  let m := rewind (Num.Fin 2) None m5 in
  let m' := rewind (Num.Fin 2) None m6 in
  let m0 := rewind Num.PosInf None m5 in
  tick m5 = 5 ∧ counters m5 = [0; 1; 2; 3; 4]
  ∧ tick m = 3 ∧ length (records m) = 2%nat ∧ counters m = [0; 1]
  ∧ tick m6 = 6 ∧ tick m' = 4 ∧ counters m' = [0; 1]
  ∧ tick m0 = 0 ∧ records m0 = [initialState m5] ∧ counters m0 = [0].
Proof. vm_compute. repeat split; reflexivity. Qed.

(** ** Reset *)

(** C9, as the code has it: [reset(s)] clears the exit state and rewinds
    in full: the tick is 0 and one record is left, a new object which is
    the stored initial state overlaid with [s].  The stored initial state
    is neither replaced nor changed, and a later full rewind goes back to
    it. *)
Theorem reset_overlays_initial_state s m :
  let m' := reset (Some s) m in
  exitState m' = None
  ∧ tick m' = 0
  ∧ records m' = [length (heap m)]
  ∧ deref (heap m') (currentState m')
    = deref (heap m) s ∪ deref (heap m) (initialState m)
  ∧ initialState m' = initialState m
  ∧ (∀ l o, heap m !! l = Some o → heap m' !! l = Some o)
  ∧ records (clear m') = [initialState m]
  ∧ tick (clear m') = 0.
Proof.
  intros m'. destruct (reset_frame s m) as [o Ho]. fold m' in Ho.
  destruct (rewind_full_frame Num.PosInf m') as [o' Ho'].
  { unfold within_limit. apply andb_false_r. }
  fold (clear m') in Ho'. rewrite Ho'. rewrite Ho.
  repeat split.
  - unfold currentState, last_record, initialState.
    cbn [heap _records _initialState set_nextState set_heap set_records
         set_tick set_exitState last].
    unfold deref at 1. rewrite lookup_app_r, Nat.sub_diag by lia.
    cbn [lookup list_lookup app default].
    unfold Object_assign. cbn [foldl]. rewrite (right_id_L ∅ (∪)). reflexivity.
  - intros l x Hl. cbn [heap set_nextState set_heap set_records set_tick set_exitState].
    apply lookup_app_l_Some, Hl.
Qed.

(** C9, as it is stated, fails: the machine starts from [{counter: 0}] and
    is reset with [{counter: 7}]; its state is then [{counter: 7}], but
    its initial state still is [{counter: 0}], and a full rewind brings
    [{counter: 0}] back.  The tick after the reset is 0, where the
    constructor leaves 1. *)
Lemma reset_then_clear_counterexample :
  let m := reset (Some (fst machineA_with_7)) (snd machineA_with_7) in
  counter (deref (heap m) (currentState m)) = 7
  ∧ counter (deref (heap m) (initialState m)) = 0
  ∧ counter (deref (heap (clear m)) (currentState (clear m))) = 0
  ∧ counter (deref (heap (clear m)) (currentState (clear m))) ≠ 7
  ∧ tick m = 0 ∧ tick machineA = 1.
Proof. vm_compute. repeat split; try reflexivity. discriminate. Qed.

(** ** An exit in the middle of a tick *)



(** * Further properties of the code *)

Import MoreScenario.

(** ** Arrays, the limit and the retention bound *)

Module MoreArrayFacts.

Lemma splice_shrinks {A} (start count : Num.t) (l : list A) :
  (length (Array.splice start count l) ≤ length l)%nat.
Proof.
  unfold Array.splice. rewrite length_app, length_take, length_drop.
  set (len := Z.of_nat (length l)).
  assert (H0 : 0 ≤ Array.actualStart start len ≤ len).
  { unfold Array.actualStart. destruct (Num.toIntegerOrInfinity start); try lia.
    destruct (Z.ltb_spec z 0); lia. }
  assert (H1 : 0 ≤ Array.actualDeleteCount count len (Array.actualStart start len)).
  { unfold Array.actualDeleteCount. destruct (Num.toIntegerOrInfinity count); lia. }
  lia.
Qed.

(** [l.splice(n, l.length - n)] for any integer [n]. *)
Lemma splice_rewind {A} (n : Z) (l : list A) :
  Array.splice (Num.Fin n) (Num.sub (Num.of_nat (length l)) (Num.Fin n)) l
  = take (rewind_keeps n (length l)) l.
Proof.
  unfold rewind_keeps. destruct (Z.ltb_spec n 0) as [Hn|Hn].
  - unfold Array.splice, Array.actualStart, Array.actualDeleteCount. simpl.
    destruct (Z.ltb_spec n 0); [|lia].
    set (len := Z.of_nat (length l)).
    rewrite (Z.max_l (len - n) 0) by lia.
    rewrite (Z.min_r (len - n)) by lia.
    replace (Z.max (len + n) 0 + (len - Z.max (len + n) 0)) with len by lia.
    unfold len. rewrite Nat2Z.id, drop_all, app_nil_r.
    f_equal. lia.
  - apply splice_keep, Hn.
Qed.

End MoreArrayFacts.

Module LimitFacts.
Import MoreArrayFacts.

(** The limit that the setter stores. *)
Lemma clamp_spec l :
  l ≠ Num.NaN →
  let c := if Num.ltb l (Num.Fin 1) then Num.Fin 1 else l in
  c ≠ Num.NaN ∧ Num.leb (Num.Fin 1) c = true.
Proof.
  destruct l as [z| | |]; simpl; try congruence; auto.
  destruct (Z.ltb_spec z 1); simpl; split; try discriminate.
  - reflexivity.
  - apply Z.leb_le. lia.
Qed.

Lemma set_limit_frame l m :
  let c := if Num.ltb l (Num.Fin 1) then Num.Fin 1 else l in
  set_limit l m
  = set_maxHistory c
      (set_records
         (fun r =>
            if Num.ltb c (_maxHistory m) then
              Array.splice (Num.Fin 0) (Num.sub (Num.of_nat (length r)) c) r
            else r) m).
Proof.
  intros c. unfold set_limit. fold c. destruct m. machine_cbv.
  destruct (Num.ltb c _); reflexivity.
Qed.

Lemma leb_ltb_trans a b c :
  a ≠ Num.NaN → Num.leb a b = true → Num.ltb c b = false → c ≠ Num.NaN →
  Num.leb a c = true.
Proof.
  destruct a, b, c; simpl; try (congruence || reflexivity).
  rewrite Z.ltb_ge, !Z.leb_le. lia.
Qed.

End LimitFacts.

Import MoreArrayFacts LimitFacts.

(** X1: the limit setter, for a limit that is an integer or an infinity.
    It stores the limit given, or 1 if that is below 1.  Lowering the
    limit trims the records from the front: what is left is a suffix of
    the records, it fits the new limit, and the latest record is still
    the latest.  Nothing else of the machine changes.  (That what is left
    fits the limit needs the limit to be an integer: the count of the
    trimming [splice] is truncated.) *)
Theorem set_limit_trims l m :
  l ≠ Num.NaN →
  bounded m →
  let m' := set_limit l m in
  limit m' = (if Num.ltb l (Num.Fin 1) then Num.Fin 1 else l)
  ∧ bounded m'
  ∧ records m' `suffix_of` records m
  ∧ last (records m') = last (records m)
  ∧ tick m' = tick m ∧ heap m' = heap m ∧ nextState m' = nextState m
  ∧ exitState m' = exitState m.
Proof.
  intros Hl [Hb1 Hb2] m'. subst m'. rewrite set_limit_frame.
  destruct (clamp_spec l Hl) as [Hc Hc1].
  set (c := if Num.ltb l (Num.Fin 1) then Num.Fin 1 else l) in *.
  unfold bounded, limit, records, tick, nextState, exitState in *.
  cbn [_maxHistory _records _tick heap _nextState _exitState
       set_maxHistory set_records].
  split; [reflexivity|].
  destruct (Num.ltb c (_maxHistory m)) eqn:E.
  - destruct c as [z| | |]; try discriminate;
      [|destruct (_maxHistory m); discriminate].
    simpl in Hc1. apply Z.leb_le in Hc1.
    unfold Num.of_nat, Num.sub. rewrite splice_front.
    set (r := _records m) in *.
    set (k := Z.to_nat (Z.min (Z.max (Z.of_nat (length r) - z) 0)
                          (Z.of_nat (length r)))).
    split; [split; [simpl; apply Z.leb_le; lia|]|].
    { simpl. apply Z.leb_le. rewrite length_drop. unfold k. lia. }
    split; [apply suffix_drop|].
    split; [|auto].
    destruct (decide (r = [])) as [->|Hne]; [rewrite drop_nil; reflexivity|].
    assert (Hk : (k < length r)%nat).
    { destruct r; [contradiction|]. unfold k. simpl length. lia. }
    rewrite <- (take_drop k r) at 2. rewrite last_app.
    destruct (last (drop k r)) eqn:Ed; [reflexivity|].
    apply last_None in Ed. apply (f_equal length) in Ed.
    rewrite length_drop in Ed. simpl in Ed. lia.
  - split; [split; [exact Hc1|]|].
    { eapply leb_ltb_trans; [discriminate|exact Hb2|exact E|exact Hc]. }
    split; [reflexivity|]. auto.
Qed.

Lemma set_limit_trims_witness :
  let m := steps scenarioA 4 machineA in
  let m' := set_limit (Num.Fin 2) m in
  counters m = [0; 1; 2; 3; 4]
  ∧ limit m' = Num.Fin 2
  ∧ counters m' = [3; 4]
  ∧ last (records m') = last (records m).
Proof.
  intros m m'.
  destruct (set_limit_trims (Num.Fin 2) m) as (Hl & _ & _ & Hlast & _).
  - discriminate.
  - split; vm_compute; reflexivity.
  - split; [vm_compute; reflexivity|].
    split; [exact Hl|].
    split; [vm_compute; reflexivity|exact Hlast].
Defined.

Module MoreRewindFacts.
Import MoreArrayFacts.

(** The records and the tick that [rewind(n)] goes back to, before any
    mutation is applied. *)
Lemma rewind_fields n mu m :
  let r0 :=
    if within_limit n m then
      Array.splice n (Num.sub (Num.of_nat (length (_records m))) n) (_records m)
    else [_initialState m] in
  let t0 := if within_limit n m then _tick m - Num.to_Z n else 0 in
  ∃ ext r',
    heap (rewind n mu m) = heap m ++ ext
    ∧ _records (rewind n mu m) = r'
    ∧ length r' = length r0
    ∧ (mu = None → r' = r0)
    ∧ _tick (rewind n mu m) = t0
    ∧ _maxHistory (rewind n mu m) = _maxHistory m
    ∧ _initialState (rewind n mu m) = _initialState m
    ∧ _exitState (rewind n mu m) = _exitState m
    ∧ _inputKeys (rewind n mu m) = _inputKeys m
    ∧ _inputs (rewind n mu m) = _inputs m.
Proof.
  unfold within_limit, rewind.
  destruct m as [h e pr i ins mx ks rs rm1 t ns].
  cbn [_maxHistory _records _initialState _tick].
  destruct (Num.leb n mx && Num.isFinite n); unfold _beginTick; machine_cbv;
    rewrite ?splice_everything; cbn [app];
    destruct mu as [p|].
  - set (sp := Array.splice n (Num.sub (Num.of_nat (length rs)) n) rs).
    destruct sp as [|x sp']; eexists _, _; cbn [heap _records];
      (split; [rewrite <- app_assoc; reflexivity|]);
      (split; [reflexivity|]); rewrite ?length_insert; repeat split; discriminate.
  - eexists [_], _. repeat split.
  - eexists _, _. cbn [heap _records].
    split; [rewrite <- app_assoc; reflexivity|].
    split; [reflexivity|]. repeat split. discriminate.
  - eexists [_], _. repeat split.
Qed.

Lemma exit_fields e m :
  ∃ ext,
    heap (exit e m) = heap m ++ ext
    ∧ exit e m
      = set_exitState (_exitState (exit e m)) (set_heap (fun _ => heap (exit e m)) m).
Proof.
  unfold exit. destruct m, e as [e|]; machine_cbv.
  - eexists [_]. split; reflexivity.
  - exists []. rewrite app_nil_r. split; reflexivity.
Qed.

End MoreRewindFacts.

Import MoreRewindFacts.

Module BoundedFacts.
Import MoreArrayFacts.

Lemma _nextTick_bounded m : bounded m → bounded (_nextTick m).
Proof.
  intros [H1 H2]. unfold bounded, limit, records in *.
  rewrite _nextTick_maxHistory, _nextTick_records. split; [exact H1|].
  rewrite retained_length by exact H1.
  destruct (_maxHistory m) as [L| | |]; try discriminate.
  - unfold Num.min, Num.of_nat. cbn [Num.ltb].
    destruct (Z.ltb_spec L (Z.of_nat (length (_records m ++ [_nextState m]))));
      simpl; apply Z.leb_le; lia.
  - reflexivity.
Qed.

Lemma _mutateTick_bounded p m : bounded m → bounded (_mutateTick p m).
Proof.
  unfold bounded, limit, records.
  rewrite _mutateTick_maxHistory, _mutateTick_records. auto.
Qed.

Lemma rewind_bounded n mu m : bounded m → bounded (rewind n mu m).
Proof.
  intros [G1 G2]. unfold bounded, limit, records in *.
  destruct (rewind_fields n mu m)
    as (ext & r' & _ & -> & Hlen & _ & _ & -> & _).
  split; [exact G1|]. rewrite Hlen.
  destruct (within_limit n m); [|exact G1].
  pose proof (splice_shrinks n
                (Num.sub (Num.of_nat (length (_records m))) n) (_records m)).
  destruct (_maxHistory m); simpl in *; try (discriminate || reflexivity).
  apply Z.leb_le. apply Z.leb_le in G2. lia.
Qed.

Lemma set_exitState_bounded e m : bounded m → bounded (set_exitState e m).
Proof. intros H. exact H. Qed.

Lemma exit_bounded e m : bounded m → bounded (exit e m).
Proof.
  intros H. destruct (exit_fields e m) as (ext & _ & ->). exact H.
Qed.

Lemma reset_bounded s m : bounded m → bounded (reset s m).
Proof. intros H. unfold reset. apply rewind_bounded. exact H. Qed.

End BoundedFacts.

Import BoundedFacts.

(** X2: for a limit that is an integer or Infinity, the retention bound
    is an invariant of the history: if the limit is at least 1 and the
    records fit within it, this still holds after a commit, after
    staging, after any rewind (with or without mutation), after [clear],
    [exit] and [reset]. *)
Theorem history_keeps_bounded m :
  bounded m →
  bounded (_nextTick m)
  ∧ (∀ p, bounded (_mutateTick p m))
  ∧ (∀ n mu, bounded (rewind n mu m))
  ∧ bounded (clear m)
  ∧ (∀ e, bounded (exit e m))
  ∧ (∀ s, bounded (reset s m)).
Proof.
  intros H.
  split; [|split; [|split; [|split; [|split]]]].
  - apply _nextTick_bounded, H.
  - intros p. apply _mutateTick_bounded, H.
  - intros n mu. apply rewind_bounded, H.
  - apply rewind_bounded, H.
  - intros e. apply exit_bounded, H.
  - intros s. apply reset_bounded, H.
Qed.

Lemma history_keeps_bounded_witness :
  let m := set_limit (Num.Fin 2) (steps scenarioA 4 machineA) in
  bounded m
  ∧ bounded (_nextTick m)
  ∧ length (records (_nextTick m)) = 2%nat
  ∧ bounded (rewind (Num.Fin 1) None m)
  ∧ bounded (reset None m).
Proof.
  intros m.
  assert (Hb : bounded m) by (split; vm_compute; reflexivity).
  destruct (history_keeps_bounded m Hb) as (Hn & _ & Hr & _ & _ & Hs).
  split; [exact Hb|]. split; [exact Hn|].
  split; [vm_compute; reflexivity|].
  split; [apply Hr|apply Hs].
Defined.

(** X3: no operation of the history changes or removes an object that is
    in the store: a commit, a new pending tick, a rewind, [exit] and
    [reset] only add objects, and the limit setter leaves the store as it
    is.  So a committed record, the initial state and an exit state keep
    their fields through all of these. *)
Theorem store_only_grows m :
  heap m `prefix_of` heap (_beginTick m)
  ∧ heap m `prefix_of` heap (_nextTick m)
  ∧ (∀ n mu, heap m `prefix_of` heap (rewind n mu m))
  ∧ (∀ e, heap m `prefix_of` heap (exit e m))
  ∧ (∀ s, heap m `prefix_of` heap (reset s m))
  ∧ (∀ l, heap (set_limit l m) = heap m).
Proof.
  split; [|split; [|split; [|split; [|split]]]].
  - destruct (_beginTick_frame m) as [o ->]. eexists. reflexivity.
  - destruct (_nextTick_heap m) as [o ->]. eexists. reflexivity.
  - intros n mu. destruct (rewind_fields n mu m) as (ext & r' & -> & _).
    eexists. reflexivity.
  - intros e. destruct (exit_fields e m) as (ext & -> & _). eexists. reflexivity.
  - intros s. unfold reset.
    destruct (rewind_fields Num.PosInf
                (Some (default (initialState m) s)) (set_exitState None m))
      as (ext & r' & -> & _).
    eexists. reflexivity.
  - intros l. rewrite set_limit_frame. reflexivity.
Qed.

Module StageFacts.

Lemma strip_lookup_other (ks : list string) (o : Obj) k :
  k ∉ ks → foldl (fun o k => delete k o) o ks !! k = o !! k.
Proof.
  revert o. induction ks as [|k' ks IH]; intros o Hk; cbn [foldl]; [reflexivity|].
  apply not_elem_of_cons in Hk as [Hne Hk].
  rewrite IH by exact Hk. apply lookup_delete_ne. congruence.
Qed.

End StageFacts.

Import StageFacts.

(** X4: staging a partial state [p] that is an object of its own merges
    it into the pending state, input keys apart: under an input key the
    pending state keeps its value, under any other key it takes the value
    of [p] if [p] has the key and keeps its own otherwise.  The input keys
    are deleted from [p] itself, and no other object of the store and no
    other field of the machine changes. *)
Theorem mutateTick_merges p m k o_p o_n :
  p ≠ nextState m →
  heap m !! p = Some o_p →
  heap m !! nextState m = Some o_n →
  let m' := _mutateTick p m in
  deref (heap m') (nextState m') !! k
  = (if decide (k ∈ _inputKeys m) then o_n !! k else o_p !! k ∪ o_n !! k)
  ∧ deref (heap m') p !! k
    = (if decide (k ∈ _inputKeys m) then None else o_p !! k)
  ∧ (∀ l, l ≠ p → l ≠ nextState m → heap m' !! l = heap m !! l)
  ∧ m' = set_heap (fun _ => heap m') m.
Proof.
  intros Hp Hop Hon m'. unfold nextState in *.
  assert (Hh : heap m'
               = alter (fun o : Obj =>
                          Object_assign o
                            [foldl (fun o k => delete k o) o_p (_inputKeys m)])
                   (_nextState m)
                   (alter (fun o : Obj =>
                             foldl (fun o k => delete k o) o (_inputKeys m))
                      p (heap m))).
  { unfold m', _mutateTick.
    set (m1 := foldl (fun m k => mutate_object p (delete k) m) m (_inputKeys m)).
    assert (Hn1 : _nextState m1 = _nextState m)
      by (unfold m1; rewrite strip_frame; reflexivity).
    assert (Hh1 : heap m1 = alter (fun o : Obj =>
                             foldl (fun o k => delete k o) o (_inputKeys m))
                      p (heap m)) by apply strip_heap.
    unfold mutate_object. cbn [heap set_heap]. rewrite Hn1, Hh1.
    unfold deref. rewrite list_lookup_alter_eq, Hop. reflexivity. }
  assert (Hn : _nextState m' = _nextState m) by apply _mutateTick_nextState.
  split; [|split; [|split]].
  - rewrite Hn, Hh. unfold deref.
    rewrite list_lookup_alter_eq, list_lookup_alter_ne, Hon by exact Hp.
    cbn [fmap option_fmap option_map default]. unfold id, Object_assign.
    cbn [foldl]. rewrite lookup_union.
    destruct (decide (k ∈ _inputKeys m)) as [Hk|Hk].
    + rewrite strip_lookup by exact Hk. apply (left_id_L None _).
    + rewrite strip_lookup_other by exact Hk. reflexivity.
  - rewrite Hh. unfold deref.
    rewrite list_lookup_alter_ne, list_lookup_alter_eq, Hop by congruence.
    cbn [fmap option_fmap option_map default]. unfold id.
    destruct (decide (k ∈ _inputKeys m)) as [Hk|Hk].
    + apply strip_lookup, Hk.
    + apply strip_lookup_other, Hk.
  - intros l Hl1 Hl2. rewrite Hh.
    rewrite !list_lookup_alter_ne by congruence. reflexivity.
  - apply _mutateTick_frame.
Qed.

Lemma mutateTick_merges_witness :
  let p := fst (alloc {[ "counter" := VNumber 5; "sensor" := VNumber 0 ]} machineI) in
  let m := snd (alloc {[ "counter" := VNumber 5; "sensor" := VNumber 0 ]} machineI) in
  let m' := _mutateTick p m in
  deref (heap m') (nextState m') !! "sensor" = Some (VNumber 7)
  ∧ deref (heap m') (nextState m') !! "counter" = Some (VNumber 5)
  ∧ deref (heap m') p !! "sensor" = None.
Proof.
  intros p m m'.
  assert (Hp : p ≠ nextState m) by (vm_compute; discriminate).
  assert (Hop : heap m !! p
                = Some ({[ "counter" := VNumber 5; "sensor" := VNumber 0 ]} : Obj))
    by (vm_compute; reflexivity).
  assert (Hon : heap m !! nextState m
                = Some ({[ "counter" := VNumber 0; "sensor" := VNumber 7 ]} : Obj))
    by (vm_compute; reflexivity).
  split; [|split].
  - destruct (mutateTick_merges p m "sensor" _ _ Hp Hop Hon) as (H & _).
    etransitivity; [exact H|]. vm_compute. reflexivity.
  - destruct (mutateTick_merges p m "counter" _ _ Hp Hop Hon) as (H & _).
    etransitivity; [exact H|]. vm_compute. reflexivity.
  - destruct (mutateTick_merges p m "sensor" _ _ Hp Hop Hon) as (_ & H & _).
    etransitivity; [exact H|]. vm_compute. reflexivity.
Defined.

(** X5: the inputs collected have exactly the keys of the input bindings;
    when several bindings have one key, the last of them gives the value,
    which is the source property of the machine, transformed if the
    binding has a transform. *)
Theorem collectInputs_last_wins m pre input post :
  _inputs m = pre ++ input :: post →
  key input ∉ map key post →
  _collectInputs m !! key input = Some (input_value m input)
  ∧ dom (_collectInputs m) = list_to_set (map key (_inputs m)).
Proof.
  intros Hin Hpost. unfold _collectInputs.
  set (f := fun (inputs : Obj) (i : InputMapping) =>
              <[key i := input_value m i]> inputs).
  change (foldl f ∅ (_inputs m) !! key input = Some (input_value m input)
          ∧ dom (foldl f ∅ (_inputs m)) = list_to_set (map key (_inputs m))).
  split.
  - rewrite Hin, foldl_app. cbn [foldl].
    generalize (foldl f ∅ pre). intros o.
    assert (H : ∀ o : Obj, o !! key input = Some (input_value m input) →
                  foldl f o post !! key input = Some (input_value m input)).
    { clear Hin. induction post as [|j post IH]; intros o' Ho; cbn [foldl]; [exact Ho|].
      cbn [map] in Hpost. apply not_elem_of_cons in Hpost as [Hne Hpost].
      apply IH; [exact Hpost|]. unfold f.
      rewrite lookup_insert_ne by congruence. exact Ho. }
    apply H. unfold f. apply lookup_insert_eq.
  - assert (H : ∀ (l : list InputMapping) (o : Obj),
              dom (foldl f o l) = list_to_set (map key l) ∪ dom o).
    { induction l as [|j l IH]; intros o; cbn [foldl map list_to_set].
      - symmetry. apply (left_id_L ∅ (∪)).
      - rewrite IH. unfold f. rewrite dom_insert_L.
        rewrite (assoc_L (∪)).
        rewrite (comm_L (∪) (list_to_set (map key l)) {[key j]}).
        reflexivity. }
    rewrite H, dom_empty_L. apply (right_id_L ∅ (∪)).
Qed.

Lemma collectInputs_last_wins_witness :
  _inputs machineI2 = [sensor] ++ sensor_doubled :: []
  ∧ _collectInputs machineI2 !! "sensor" = Some (VNumber 14)
  ∧ dom (_collectInputs machineI2) = {[ "sensor" ]}.
Proof.
  assert (Hin : _inputs machineI2 = [sensor] ++ sensor_doubled :: [])
    by (vm_compute; reflexivity).
  assert (Hpost : key sensor_doubled ∉ map key [])
    by (cbn [map]; apply not_elem_of_nil).
  destruct (collectInputs_last_wins machineI2 _ _ _ Hin Hpost) as [H1 H2].
  split; [exact Hin|]. split.
  - etransitivity; [exact H1|]. vm_compute. reflexivity.
  - rewrite H2, Hin. cbn [map app list_to_set key sensor sensor_doubled].
    rewrite (right_id_L ∅ (∪)). apply (idemp_L (∪)).
Defined.

Module CommitFacts.

Lemma _nextTick_unfold m :
  _nextTick m
  = set_tick (fun t => t + 1)
      (_beginTick
         (set_records
            (fun r => retained (_maxHistory m) (r ++ [_nextState m])) m)).
Proof.
  unfold _nextTick, retained, nextState, records.
  destruct m as [h e pr i ins mx ks rs rm1 t ns].
  machine_cbv. destruct (Num.ltb _ _); reflexivity.
Qed.

Lemma retained_suffix limit r : retained limit r `suffix_of` r.
Proof.
  unfold retained. destruct (Num.ltb _ _); [|reflexivity].
  unfold Array.splice, Array.actualStart. cbn [Num.toIntegerOrInfinity].
  change (0 <? 0) with false. cbv iota. rewrite Z.min_l by lia.
  cbn [Z.to_nat take app]. apply suffix_drop.
Qed.

Lemma Object_assign_two (a b : Obj) : Object_assign ∅ [a; b] = b ∪ a.
Proof.
  unfold Object_assign. cbn [foldl]. rewrite (right_id_L ∅ (∪)). reflexivity.
Qed.

End CommitFacts.

Import CommitFacts.

(** X6: a commit makes no copy.  With a limit of 1 or more, the state
    that is current after [_nextTick] is the very object that was pending
    before it, the records are a final segment of the old records followed
    by that object, and the tick goes up by one.  The new pending state is
    a new object of the store: the committed state overlaid with the
    inputs.  The exit state is not touched. *)
Theorem nextTick_commits_pending m :
  Num.leb (Num.Fin 1) (limit m) = true →
  let m' := _nextTick m in
  currentState m' = nextState m
  ∧ records m' `suffix_of` (records m ++ [nextState m])
  ∧ tick m' = tick m + 1
  ∧ nextState m' = length (heap m)
  ∧ heap m' = heap m ++ [_collectInputs m ∪ deref (heap m) (nextState m)]
  ∧ exitState m' = exitState m.
Proof.
  intros Hl m'. unfold limit in Hl.
  assert (Hlast : last (_records m') = Some (_nextState m)).
  { unfold m'. rewrite _nextTick_records. apply retained_last, Hl. }
  split; [|split; [|split; [|split; [|split]]]].
  - unfold currentState, last_record. rewrite Hlast. reflexivity.
  - unfold records, m'. rewrite _nextTick_records. apply retained_suffix.
  - apply _nextTick_tick.
  - unfold m'. destruct (_nextTick_frame m) as [o ->]. reflexivity.
  - unfold m'. rewrite _nextTick_unfold.
    pose proof (retained_last (_maxHistory m) (_records m) (_nextState m) Hl) as Hr.
    unfold _beginTick, last_record, alloc.
    cbn [heap _records set_records set_heap set_nextState set_tick].
    rewrite Hr. rewrite Object_assign_two. unfold nextState. reflexivity.
  - apply _nextTick_exitState.
Qed.

Lemma nextTick_commits_pending_witness :
  let m := steps scenarioA 2 machineA in
  let m' := _nextTick m in
  currentState m' = nextState m ∧ tick m' = 4
  ∧ counter (deref (heap m') (nextState m')) = 2.
Proof.
  intros m m'.
  assert (Hl : Num.leb (Num.Fin 1) (limit m) = true) by (vm_compute; reflexivity).
  destruct (nextTick_commits_pending m Hl) as (H1 & _ & H3 & _).
  split; [exact H1|]. split.
  - etransitivity; [exact H3|]. vm_compute. reflexivity.
  - vm_compute. reflexivity.
Defined.

Module FiniteRewindFacts.

(** A rewind by a finite number within the limit, field by field. *)
Lemma rewind_finite_fields z m :
  Num.leb (Num.Fin z) (limit m) = true →
  let m' := rewind (Num.Fin z) None m in
  records m' = take (rewind_keeps z (length (records m))) (records m)
  ∧ tick m' = tick m - z
  ∧ nextState m' = length (heap m)
  ∧ heap m'
    = heap m ++ [_collectInputs m
                 ∪ match last_record m' with
                   | Some l => deref (heap m) l
                   | None => ∅
                   end]
  ∧ exitState m' = exitState m
  ∧ limit m' = limit m
  ∧ _records_m1 m' = _records_m1 m.
Proof.
  intros Hl m'. unfold limit in Hl. subst m'.
  unfold rewind, within_limit. rewrite Hl. cbn [Num.isFinite andb].
  destruct m as [h e pr i ins mx ks rs rm1 t ns].
  unfold _beginTick. machine_cbv.
  rewrite MoreArrayFacts.splice_rewind, Object_assign_two.
  repeat split.
Qed.

End FiniteRewindFacts.

Import FiniteRewindFacts.

(** X7: a rewind by a finite [n] within the limit.  The records are cut
    with [splice(n, length - n)] and [n] is taken off the tick, whatever
    the number of records: for [0 <= n], the [n] oldest records stay (all
    of them when there are fewer); for [n < 0], the [-n] newest records
    are dropped and the tick goes UP by [-n].  The new pending state is a
    new object, the latest record left overlaid with the inputs; the exit
    state and the limit stay. *)
Theorem rewind_within_limit z m :
  Num.leb (Num.Fin z) (limit m) = true →
  let m' := rewind (Num.Fin z) None m in
  records m' = take (rewind_keeps z (length (records m))) (records m)
  ∧ tick m' = tick m - z
  ∧ nextState m' = length (heap m)
  ∧ heap m'
    = heap m ++ [_collectInputs m
                 ∪ match last_record m' with
                   | Some l => deref (heap m) l
                   | None => ∅
                   end]
  ∧ exitState m' = exitState m
  ∧ limit m' = limit m.
Proof.
  intros Hl m'.
  destruct (rewind_finite_fields z m Hl) as (H1 & H2 & H3 & H4 & H5 & H6 & _).
  repeat (split; [assumption|]). exact H6.
Qed.

Lemma rewind_within_limit_witness :
  let m := steps scenarioA 4 machineA in
  let m' := rewind (Num.Fin (-2)) None m in
  counters m = [0; 1; 2; 3; 4] ∧ tick m = 5
  ∧ length (records m') = 3%nat ∧ counters m' = [0; 1; 2] ∧ tick m' = 7.
Proof.
  intros m m'.
  assert (Hl : Num.leb (Num.Fin (-2)) (limit m) = true) by (vm_compute; reflexivity).
  destruct (rewind_within_limit (-2) m Hl) as (H1 & H2 & _).
  split; [vm_compute; reflexivity|]. split; [vm_compute; reflexivity|].
  split; [|split].
  - etransitivity; [exact (f_equal length H1)|]. vm_compute. reflexivity.
  - vm_compute. reflexivity.
  - etransitivity; [exact H2|]. vm_compute. reflexivity.
Defined.

(** X8: [rewind(0)] is no null operation.  On a machine whose record
    array has no property [-1], it removes every record and leaves the
    tick as it is; the current state is then the new pending state, which
    holds the inputs and nothing else: the fields of the state are gone. *)
Theorem rewind_zero_forgets m :
  Num.leb (Num.Fin 0) (limit m) = true →
  _records_m1 m = None →
  let m' := rewind (Num.Fin 0) None m in
  records m' = []
  ∧ tick m' = tick m
  ∧ currentState m' = nextState m'
  ∧ deref (heap m') (currentState m') = _collectInputs m.
Proof.
  intros Hl Hm1 m'.
  destruct (rewind_finite_fields 0 m Hl) as (Hr & Ht & Hn & Hh & _ & _ & H1).
  fold m' in Hr, Ht, Hn, Hh, H1.
  assert (Hr0 : records m' = []) by (rewrite Hr; reflexivity).
  assert (Hm1' : _records_m1 m' = None) by (rewrite H1; exact Hm1).
  assert (Hlast : last_record m' = None).
  { unfold last_record. unfold records in Hr0. rewrite Hr0. exact Hm1'. }
  assert (Hc : currentState m' = nextState m').
  { unfold currentState. rewrite Hlast. reflexivity. }
  split; [exact Hr0|]. split; [rewrite Ht; lia|]. split; [exact Hc|].
  rewrite Hc, Hn, Hh, Hlast. unfold deref.
  rewrite lookup_app_r, Nat.sub_diag by lia.
  cbn [lookup list_lookup default]. unfold id. apply (right_id_L ∅ (∪)).
Qed.

Lemma rewind_zero_forgets_witness :
  let m := machineI in
  let m' := rewind (Num.Fin 0) None m in
  deref (heap m) (currentState m)
  = {[ "counter" := VNumber 0; "sensor" := VNumber 7 ]}
  ∧ records m' = [] ∧ tick m' = 1
  ∧ deref (heap m') (currentState m') = {[ "sensor" := VNumber 7 ]}.
Proof.
  intros m m'.
  assert (Hl : Num.leb (Num.Fin 0) (limit m) = true) by (vm_compute; reflexivity).
  assert (Hm1 : _records_m1 m = None) by (vm_compute; reflexivity).
  destruct (rewind_zero_forgets m Hl Hm1) as (H1 & H2 & _ & H4).
  split; [vm_compute; reflexivity|]. split; [exact H1|].
  split; [etransitivity; [exact H2|]; vm_compute; reflexivity|].
  etransitivity; [exact H4|]. vm_compute. reflexivity.
Defined.

(** X9: [rewind(n, mutate)] within the limit does not change the record
    it goes back to: the latest record kept, [x], is replaced in the
    array by a new object, which is [x] overlaid with [mutate]; [x]
    itself and the records before it are as they were, and the new
    pending state is another new object, that one overlaid with the
    inputs. *)
Theorem rewind_mutate_copies z p m k x :
  Num.leb (Num.Fin z) (limit m) = true →
  take (rewind_keeps z (length (records m))) (records m) = k ++ [x] →
  let m' := rewind (Num.Fin z) (Some p) m in
  let o := deref (heap m) p ∪ deref (heap m) x in
  records m' = k ++ [length (heap m)]
  ∧ heap m' = heap m ++ [o; _collectInputs m ∪ o]
  ∧ currentState m' = length (heap m)
  ∧ nextState m' = S (length (heap m))
  ∧ tick m' = tick m - z.
Proof.
  intros Hl Hk m' o. unfold limit in Hl. subst m' o.
  unfold rewind, within_limit. rewrite Hl. cbn [Num.isFinite andb].
  destruct m as [h e pr i ins mx ks rs rm1 t ns].
  unfold records in Hk. cbn [_records] in Hk.
  unfold _beginTick. machine_cbv.
  rewrite MoreArrayFacts.splice_rewind, Hk.
  rewrite last_snoc.
  destruct (k ++ [x]) as [|y r] eqn:E; [destruct k; discriminate|].
  rewrite <- E. machine_cbv.
  assert (Hins : <[(length (k ++ [x]) - 1)%nat := length h]> (k ++ [x])
                 = k ++ [length h]).
  { rewrite length_app. cbn [length]. rewrite Nat.add_sub.
    rewrite insert_app_r_alt, Nat.sub_diag by lia. reflexivity. }
  rewrite Hins, last_snoc, !Object_assign_two.
  unfold deref. rewrite lookup_app_r, Nat.sub_diag by lia.
  cbn [lookup list_lookup default]. unfold id.
  rewrite length_app, Nat.add_1_r, <- app_assoc.
  repeat split.
Qed.

Lemma rewind_mutate_copies_witness :
  let p := fst (alloc {[ "counter" := VNumber 9 ]} (steps scenarioA 4 machineA)) in
  let m := snd (alloc {[ "counter" := VNumber 9 ]} (steps scenarioA 4 machineA)) in
  let m' := rewind (Num.Fin 2) (Some p) m in
  let x := default 0%nat (records m !! 1%nat) in
  counters m = [0; 1; 2; 3; 4]
  ∧ counters m' = [0; 9]
  ∧ counter (deref (heap m') x) = 1
  ∧ currentState m' = length (heap m)
  ∧ tick m' = 3.
Proof.
  intros p m m' x.
  assert (Hl : Num.leb (Num.Fin 2) (limit m) = true) by (vm_compute; reflexivity).
  assert (Hk : take (rewind_keeps 2 (length (records m))) (records m)
               = take 1 (records m) ++ [x]) by (vm_compute; reflexivity).
  destruct (rewind_mutate_copies 2 p m _ _ Hl Hk) as (_ & _ & H3 & _ & H5).
  split; [vm_compute; reflexivity|]. split; [vm_compute; reflexivity|].
  split; [vm_compute; reflexivity|]. split; [exact H3|].
  etransitivity; [exact H5|]. vm_compute. reflexivity.
Defined.


Module EngineFacts.

(** What the callbacks of a program keep, the loop and the tick keep. *)
Section Invariant.
Variable I : Machine → Prop.
Hypothesis I_nextTick : ∀ m, I m → I (_nextTick m).
Hypothesis I_mutateTick : ∀ p m, I m → I (_mutateTick p m).
Hypothesis I_exit : ∀ m, I m → I (set_exitState (Some (currentState m)) m).

Lemma resolve_priority_invariant s p m :
  (∀ f, p = PriorityFunction f → ∀ s m, I m → I (snd (f s m))) →
  I m → I (snd (resolve_priority s p m)).
Proof.
  intros Hp Hm. destruct p as [n|f|]; simpl; try exact Hm.
  specialize (Hp f eq_refl s m Hm). destruct (f s m). exact Hp.
Qed.

Lemma resolve_invariant s program m :
  respects I program → I m →
  I (snd (resolve s program m))
  ∧ Forall (fun r => (∀ s m, I m → I (snd (r_cond r s m)))
                     ∧ (∀ s m, I m → I (snd (r_action r s m))))
      (fst (resolve s program m)).
Proof.
  intros Hp. revert m.
  induction Hp as [|[cond entry] program (Hc & Ha & Hf) Hp IH]; intros m Hm; simpl.
  - split; [exact Hm|constructor].
  - pose proof (resolve_priority_invariant s (priority entry) m Hf Hm) as H1.
    destruct (resolve_priority s (priority entry) m) as [p m1]. simpl in H1.
    destruct (IH m1 H1) as [H2 H3].
    destruct (resolve s program m1) as [rest m2]. simpl in *.
    split; [exact H2|]. constructor; [|exact H3]. split; assumption.
Qed.

Lemma step_loop_invariant currentTick actions :
  Forall (fun r => (∀ s m, I m → I (snd (r_cond r s m)))
                   ∧ (∀ s m, I m → I (snd (r_action r s m)))) actions →
  ∀ fired m, I m → I (loop_machine (step_loop currentTick actions fired m)).
Proof.
  induction 1 as [|e actions [Hc Ha] Hrest IH]; intros fired m Hm; simpl.
  - exact Hm.
  - destruct (negb (tick m =? currentTick) && _); [exact Hm|].
    destruct (is_set _); [exact Hm|].
    specialize (Hc (currentState m) m Hm).
    destruct (r_cond e (currentState m) m) as [[] m1]; simpl in Hc; [|apply IH, Hc].
    specialize (Ha (currentState m1) m1 Hc).
    destruct (r_action e (currentState m1) m1) as [[p|] m2]; simpl in Ha;
      apply IH; [apply I_mutateTick|]; exact Ha.
Qed.

Lemma step_end_invariant r : I (loop_machine r) → I (snd (step_end r)).
Proof.
  destruct r as [result m|fired m|fired m]; simpl; intros Hm; [exact Hm| |];
    destruct (fired =? 0)%nat; auto.
Qed.

Lemma step_begin_invariant m : I m → I (step_begin m).
Proof. unfold step_begin. destruct (tick m <? 1); auto. Qed.

Lemma step_invariant program m :
  respects I program → I m → I (snd (step program m)).
Proof.
  intros Hp Hm. rewrite step_unfold. apply step_end_invariant.
  pose proof (resolve_invariant (currentState (step_begin m)) program
                (step_begin m) Hp (step_begin_invariant m Hm)) as [H1 H2].
  apply step_loop_invariant.
  - unfold actions_of, sorted_actions.
    destruct (resolve _ program (step_begin m)) as [entries m1]. simpl in *.
    eapply Permutation_Forall; [|exact H2].
    symmetry. apply sort_perm.
  - unfold machine_at_loop, sorted_actions.
    destruct (resolve _ program (step_begin m)) as [entries m1]. exact H1.
Qed.

Lemma steps_invariant program n m :
  respects I program → I m → I (steps program n m).
Proof.
  intros Hp Hm. induction n as [|n IH]; [exact Hm|].
  cbn [steps]. apply step_invariant; assumption.
Qed.

Lemma run_loop_invariant program forever fuel :
  respects I program →
  ∀ m m', I m → run_loop program forever fuel m = Some m' → I m'.
Proof.
  intros Hp. induction fuel as [|fuel IH]; intros m m' Hm; simpl.
  - destruct (is_set _); [|discriminate]. intros [= <-]. exact Hm.
  - destruct (is_set _); [intros [= <-]; exact Hm|].
    pose proof (step_invariant program m Hp Hm) as H1.
    destruct (step program m) as [change m1]. simpl in H1.
    destruct (negb forever && _); [intros [= <-]; exact H1|].
    apply IH, H1.
Qed.

End Invariant.

(** The loop of [run] ends with the exit state set. *)
Lemma run_loop_exits program forever fuel :
  ∀ m m', run_loop program forever fuel m = Some m' →
          is_set (exitState m') = true.
Proof.
  induction fuel as [|fuel IH]; intros m m'; simpl.
  - destruct (is_set (exitState m)) eqn:E; [|discriminate].
    intros [= <-]. exact E.
  - destruct (is_set (exitState m)) eqn:E; [intros [= <-]; exact E|].
    pose proof (step_zero_exits program m) as Hz.
    destruct (step program m) as [change m1]. simpl in Hz.
    destruct forever; simpl.
    + apply IH.
    + destruct (Nat.eqb_spec change 0) as [->|]; [|apply IH].
      intros [= <-]. rewrite (Hz eq_refl). reflexivity.
Qed.

(** Priorities that are no functions are resolved without a call. *)
Lemma resolve_constant s program m :
  constant_priorities program →
  snd (resolve s program m) = m.
Proof.
  induction 1 as [|[cond entry] program Hc Hp IH]; simpl; [reflexivity|].
  simpl in Hc.
  assert (H1 : snd (resolve_priority s (priority entry) m) = m).
  { destruct (priority entry); simpl in *; [reflexivity|discriminate|reflexivity]. }
  destruct (resolve_priority s (priority entry) m) as [p m1]. simpl in H1. subst m1.
  destruct (resolve s program m) as [rest m2]. simpl in *. exact IH.
Qed.

(** The count that a loop reports. *)
Lemma step_loop_count currentTick actions :
  ∀ fired m,
    (fst (step_end (step_loop currentTick actions fired m))
     ≤ fired + length actions)%nat
    ∧ (actions ≠ [] →
       (1 ≤ fired + length actions)%nat).
Proof.
  induction actions as [|e actions IH]; intros fired m; simpl.
  - split; [lia|congruence].
  - split; [|lia].
    destruct (negb (tick m =? currentTick) && _); [simpl; lia|].
    destruct (is_set _); [simpl; lia|].
    destruct (r_cond e (currentState m) m) as [[] m1].
    + destruct (r_action e (currentState m1) m1) as [[p|] m2];
        match goal with
        | |- context [step_loop _ _ _ ?x] =>
            destruct (IH (S fired) x) as [H _]; lia
        end.
    + destruct (IH fired m1) as [H _]. lia.
Qed.

End EngineFacts.

Import EngineFacts.

(** X10: once [exit] has been called, [run] executes no tick: whatever the
    program, the flag and the bound on the iterations (none at all
    included), it returns the exit state and leaves the machine as [exit]
    left it.  With no argument the exit state is the current state
    itself; with an argument it is a new object, the current state
    overlaid with the argument, and the records, the tick and the pending
    state are as before. *)
Theorem exit_then_run program forever fuel e m :
  let m' := exit e m in
  let s := match e with
           | Some _ => length (heap m)
           | None => currentState m
           end in
  run program forever fuel m' = Some (s, m')
  ∧ exitState m' = Some s
  ∧ (∀ p, e = Some p →
       heap m' = heap m ++ [deref (heap m) p ∪ deref (heap m) (currentState m)])
  ∧ (e = None → heap m' = heap m)
  ∧ records m' = records m ∧ tick m' = tick m ∧ nextState m' = nextState m.
Proof.
  intros m' s.
  assert (He : exitState m' = Some s).
  { unfold m', s, exit. destruct e as [p|]; reflexivity. }
  split; [|split; [exact He|]].
  - unfold run. rewrite (run_loop_done _ _ _ _ _ He). rewrite He. reflexivity.
  - subst m'. unfold exit.
    destruct m as [h ex pr i ins mx ks rs rm1 t ns]. destruct e as [p|];
      machine_cbv; rewrite ?Object_assign_two; repeat split; try discriminate.
    intros p' [= <-]. reflexivity.
Qed.

(** X11: what [run] returns is the exit state, never the current state of
    the fallback [this._exitState || this._history.currentState]: when
    [run] returns, the exit state is set and is the result.  Running the
    machine again returns the same state and leaves the machine as it
    is. *)
Theorem run_returns_exit_state program forever fuel m s m' :
  run program forever fuel m = Some (s, m') →
  exitState m' = Some s
  ∧ ∀ program' forever' fuel', run program' forever' fuel' m' = Some (s, m').
Proof.
  unfold run. destruct (run_loop program forever fuel m) as [m1|] eqn:E;
    [|discriminate].
  pose proof (run_loop_exits _ _ _ _ _ E) as Hx.
  destruct (exitState m1) as [x|] eqn:Ex; [|discriminate].
  cbn [default]. unfold id. intros [= <- <-].
  split; [exact Ex|]. intros program' forever' fuel'.
  rewrite (run_loop_done _ _ _ _ _ Ex). rewrite Ex. reflexivity.
Qed.

Lemma run_returns_exit_state_witness :
  let m' := steps count_to_3 4 machineA in
  run count_to_3 false 10 machineA = Some (currentState m', m')
  ∧ exitState m' = Some (currentState m')
  ∧ counter (deref (heap m') (currentState m')) = 3
  ∧ run scenarioA true 0 m' = Some (currentState m', m').
Proof.
  intros m'.
  assert (Hrun : run count_to_3 false 10 machineA = Some (currentState m', m')).
  { apply (f_equal (fun r : option (loc * Machine) => r)). unfold run.
    destruct (run_loop_quiescent count_to_3 3 machineA) with (forever := false)
      (fuel := 10%nat) as [-> ->]; [|lia|reflexivity].
    split; [|split; vm_compute; reflexivity].
    intros i Hi.
    destruct i as [|[|[|i]]]; [| | |lia]; split;
      vm_compute; (reflexivity || discriminate). }
  destruct (run_returns_exit_state _ _ _ _ _ _ Hrun) as [H1 H2].
  split; [exact Hrun|]. split; [exact H1|].
  split; [vm_compute; reflexivity|]. apply H2.
Defined.

Module IdleFacts.

(** The conditions of the resolved entries are those of the program. *)
Lemma resolve_conditions (P : ActivationCond → Prop) s program :
  Forall (fun e : ActivationCond * ProgramEntry => P (fst e)) program →
  ∀ m, Forall (fun r => P (r_cond r)) (fst (resolve s program m)).
Proof.
  induction 1 as [|[cond entry] program Hc Hp IH]; intros m; simpl;
    [constructor|].
  destruct (resolve_priority s (priority entry) m) as [p m1].
  specialize (IH m1). destruct (resolve s program m1) as [rest m2].
  constructor; assumption.
Qed.

(** The loop over entries whose conditions, called on the machine as it
    is, do not hold and leave it as it is. *)
Lemma step_loop_quiet currentTick actions m :
  tick m = currentTick →
  Forall (fun r => r_cond r (currentState m) m = (false, m)) actions →
  step_loop currentTick actions 0 m = Exhausted 0 m
  ∨ step_loop currentTick actions 0 m = Broke 0 m.
Proof.
  intros Ht. induction 1 as [|e actions He Hrest IH]; simpl.
  - left. reflexivity.
  - rewrite Ht, Z.eqb_refl. simpl.
    destruct (is_set (exitState m)); [right; reflexivity|].
    rewrite He. exact IH.
Qed.

End IdleFacts.

Import IdleFacts.

(** X12: a tick in which nothing can fire.  When no priority is a
    function and either the exit state is set already or no condition of
    the program holds in this tick (each of them, called with the current
    state, returns false and leaves the machine as it is; an empty
    program included), [step] calls no action, commits the pending state
    all the same, returns 0 and sets the exit state to the state it has
    just committed: an exit state set before is replaced. *)
Theorem step_nothing_fires program m :
  constant_priorities program →
  is_set (exitState m) = true
  ∨ Forall (fun e : ActivationCond * ProgramEntry =>
              fst e (currentState (step_begin m)) (step_begin m)
              = (false, step_begin m)) program →
  let m1 := _nextTick (step_begin m) in
  step program m = (0%nat, set_exitState (Some (currentState m1)) m1)
  ∧ tick (snd (step program m)) = tick (step_begin m) + 1
  ∧ (Num.leb (Num.Fin 1) (limit m) = true →
     exitState (snd (step program m)) = Some (nextState (step_begin m))).
Proof.
  intros Hc Hidle m1.
  assert (Hstep : step program m
                  = (0%nat, set_exitState (Some (currentState m1)) m1)).
  { rewrite step_unfold. unfold actions_of, machine_at_loop, sorted_actions.
    pose proof (resolve_constant (currentState (step_begin m)) program
                  (step_begin m) Hc) as Hm.
    assert (Hconds : is_set (exitState m) = true
                     ∨ Forall (fun r => r_cond r (currentState (step_begin m))
                                          (step_begin m)
                                        = (false, step_begin m))
                         (fst (resolve (currentState (step_begin m)) program
                                 (step_begin m)))).
    { destruct Hidle as [Hx | Hf]; [left; exact Hx|right].
      apply (resolve_conditions
               (fun c => c (currentState (step_begin m)) (step_begin m)
                         = (false, step_begin m))), Hf. }
    destruct (resolve (currentState (step_begin m)) program (step_begin m))
      as [entries m0]. simpl in Hm, Hconds. subst m0. cbn [fst snd].
    assert (Hend : ∀ r, (r = Exhausted 0 (step_begin m)
                         ∨ r = Broke 0 (step_begin m)) →
                        step_end r
                        = (0%nat, set_exitState (Some (currentState m1)) m1)).
    { intros r [-> | ->]; reflexivity. }
    apply Hend.
    destruct Hconds as [Hx | Hf].
    - destruct (Array.sort by_priority entries) as [|e rest]; [left; reflexivity|].
      right. rewrite <- (step_begin_exitState m) in Hx.
      destruct (exitState (step_begin m)) as [x|] eqn:Ex; [|discriminate].
      eapply step_loop_exited, Ex.
    - apply step_loop_quiet; [reflexivity|].
      eapply Permutation_Forall; [symmetry; apply sort_perm|exact Hf]. }
  rewrite Hstep. cbn [fst snd]. split; [reflexivity|]. split.
  - unfold tick, m1. cbn [_tick set_exitState]. apply _nextTick_tick.
  - intros Hl. unfold exitState. cbn [_exitState set_exitState]. f_equal.
    unfold currentState, last_record, m1, nextState.
    rewrite _nextTick_records, retained_last; [reflexivity|].
    unfold step_begin. unfold limit in Hl.
    destruct (tick m <? 1); [rewrite _nextTick_maxHistory|]; exact Hl.
Qed.

Lemma step_nothing_fires_witness :
  let m := steps count_to_3 3 machineA in
  let m' := snd (step count_to_3 m) in
  let x := steps scenarioB 4 machineA in
  let x' := snd (step scenarioB x) in
  exitState m = None
  ∧ counter (deref (heap m) (currentState m)) = 3
  ∧ fst (step count_to_3 m) = 0%nat
  ∧ tick m' = 5
  ∧ exitState m' = Some (nextState m)
  ∧ counter (deref (heap x) (default 0%nat (exitState x))) = 3
  ∧ fst (step scenarioB x) = 0%nat
  ∧ exitState x' = Some (nextState x)
  ∧ counter (deref (heap x') (default 0%nat (exitState x'))) = 4.
Proof.
  intros m m' x x'.
  assert (Hc : constant_priorities count_to_3) by (repeat constructor).
  assert (Hf : Forall (fun e : ActivationCond * ProgramEntry =>
                         fst e (currentState (step_begin m)) (step_begin m)
                         = (false, step_begin m)) count_to_3).
  { constructor; [|constructor]. vm_compute. reflexivity. }
  destruct (step_nothing_fires count_to_3 m Hc (or_intror Hf)) as (H1 & H2 & H3).
  assert (Hc' : constant_priorities scenarioB) by (repeat constructor).
  assert (Hx : is_set (exitState x) = true) by (vm_compute; reflexivity).
  destruct (step_nothing_fires scenarioB x Hc' (or_introl Hx)) as (H4 & _ & H6).
  split; [vm_compute; reflexivity|].
  split; [vm_compute; reflexivity|].
  split; [rewrite H1; reflexivity|].
  split; [etransitivity; [exact H2|]; vm_compute; reflexivity|].
  split; [etransitivity; [apply H3; vm_compute; reflexivity|]; vm_compute; reflexivity|].
  split; [vm_compute; reflexivity|].
  split; [rewrite H4; reflexivity|].
  split; [etransitivity; [apply H6; vm_compute; reflexivity|]; vm_compute; reflexivity|].
  vm_compute. reflexivity.
Defined.

(** X13: [step] never reports more actions than the program has entries;
    for an empty program it reports 0. *)
Theorem step_fired_bound program m :
  (fst (step program m) ≤ length program)%nat.
Proof.
  rewrite step_unfold.
  destruct (step_loop_count (tick (step_begin m)) (actions_of program m) 0
              (machine_at_loop program m)) as [H _].
  assert (Hlen : length (actions_of program m) = length program).
  { unfold actions_of, sorted_actions.
    pose proof (resolve_length (currentState (step_begin m)) program
                  (step_begin m)) as Hr.
    destruct (resolve _ program (step_begin m)) as [entries m0]. simpl in *.
    rewrite <- Hr. apply Permutation_length, sort_perm. }
  rewrite Hlen in H. exact H.
Qed.

(** X14: for a limit that is an integer or Infinity, the retention bound
    is an invariant of the engine.  If every condition, action and
    priority function of the program keeps it, then [step] keeps it, any
    number of steps keeps it, and the machine that [run] leaves has it:
    the records never exceed the limit. *)
Theorem step_keeps_bounded program m :
  respects bounded program →
  bounded m →
  bounded (snd (step program m))
  ∧ (∀ n, bounded (steps program n m))
  ∧ (∀ forever fuel s m',
       run program forever fuel m = Some (s, m') → bounded m').
Proof.
  intros Hp Hm.
  assert (H1 : ∀ m, bounded m → bounded (_nextTick m))
    by apply _nextTick_bounded.
  assert (H2 : ∀ p m, bounded m → bounded (_mutateTick p m))
    by apply _mutateTick_bounded.
  assert (H3 : ∀ m, bounded m → bounded (set_exitState (Some (currentState m)) m))
    by (intros m0; apply set_exitState_bounded).
  split; [|split].
  - apply (step_invariant bounded H1 H2 H3); assumption.
  - intros n. apply (steps_invariant bounded H1 H2 H3); assumption.
  - intros forever fuel s m'. unfold run.
    destruct (run_loop program forever fuel m) as [m1|] eqn:E; [|discriminate].
    intros [= _ <-].
    eapply (run_loop_invariant bounded H1 H2 H3); eassumption.
Qed.

Lemma step_keeps_bounded_witness :
  let m := set_limit (Num.Fin 2) machineA in
  bounded (snd (step scenarioC m))
  ∧ bounded (steps scenarioA 5 m)
  ∧ length (records (steps scenarioA 5 m)) = 2%nat.
Proof.
  intros m.
  assert (Hm : bounded m) by (split; vm_compute; reflexivity).
  assert (Hinc : ∀ p, (∀ s m, bounded m → bounded (snd (always_true s m)))
                     ∧ (∀ s m, bounded m → bounded (snd (increment s m)))
                     ∧ (∀ f, PriorityNumber p = PriorityFunction f →
                          ∀ s m, bounded m → bounded (snd (f s m)))).
  { intros p. split; [|split]; [intros s m0 H; exact H ..|discriminate]. }
  assert (HA : respects bounded scenarioA).
  { constructor; [apply Hinc|constructor]. }
  assert (HC : respects bounded scenarioC).
  { constructor; [|constructor; [apply Hinc|]].
    - split; [|split]; [intros s m0 H; exact H| |discriminate].
      intros s m0 H. apply rewind_bounded, H.
    - constructor; [apply Hinc|constructor]. }
  destruct (step_keeps_bounded scenarioC m HC Hm) as (H1 & _).
  destruct (step_keeps_bounded scenarioA m HA Hm) as (_ & H2 & _).
  split; [exact H1|]. split; [apply H2|]. vm_compute. reflexivity.
Defined.

(** X15: the machine that the constructor leaves.  The initial state
    stored is a new object, the state given overlaid with the inputs: an
    input key of the state given is replaced by the input.  The first
    record is a second object with the same fields, committed as tick 1,
    and the pending state is a third; the limit is infinite and no exit
    state is set. *)
Theorem new_machine instance init inputs :
  let m := new instance init inputs in
  let o := _collectInputs m ∪ init in
  heap m = [o; o; o]
  ∧ initialState m = 0%nat ∧ records m = [1%nat] ∧ nextState m = 2%nat
  ∧ tick m = 1 ∧ limit m = Num.PosInf ∧ exitState m = None
  ∧ _inputKeys m = map key inputs ∧ _records_m1 m = None.
Proof.
  intros m o. subst o m. unfold new, alloc. cbv beta iota zeta.
  rewrite inputKeys_frame, _nextTick_unfold.
  unfold _beginTick, retained. machine_cbv.
  cbn [app length Num.of_nat Num.ltb last lookup list_lookup default deref].
  unfold id. rewrite !Object_assign_two.
  set (ci := foldl _ ∅ inputs).
  assert (H1 : Object_assign ∅ [ci ∪ init] = ci ∪ init).
  { unfold Object_assign. cbn [foldl]. apply (right_id_L ∅ (∪)). }
  rewrite H1.
  assert (Hi : ci ∪ (ci ∪ init) = ci ∪ init).
  { rewrite (assoc_L (∪)), (idemp_L (∪)). reflexivity. }
  rewrite Hi. repeat split.
Qed.

Module AllocFacts.

Lemma splice_Forall {A} (P : A → Prop) start count (l : list A) :
  Forall P l → Forall P (Array.splice start count l).
Proof.
  intros H. unfold Array.splice. apply Forall_app.
  split; [apply Forall_take|apply Forall_drop]; exact H.
Qed.

Lemma Forall_lt_weaken (l : list nat) (a b : nat) :
  (a ≤ b)%nat → Forall (fun x => (x < a)%nat) l → Forall (fun x => (x < b)%nat) l.
Proof.
  intros Hab H. eapply Forall_impl; [exact H|].
  intros x Hx. simpl in Hx. lia.
Qed.

Lemma not_elem_of_lt (l : list nat) (a : nat) :
  Forall (fun x => (x < a)%nat) l → a ∉ l.
Proof.
  intros H Hin. rewrite Forall_forall in H. specialize (H a Hin). lia.
Qed.

(** A new pending tick: the pending state is an object that nothing
    else refers to. *)
Lemma _beginTick_apart m :
  allocated m → allocated (_beginTick m) ∧ pending_apart (_beginTick m).
Proof.
  intros (Hr & Hi & Hn & He & H1).
  destruct (_beginTick_frame m) as [o ->].
  unfold allocated, pending_apart, records, initialState, nextState, exitState in *.
  cbn [heap _records _initialState _nextState _exitState _records_m1
       set_nextState set_heap].
  rewrite length_app. cbn [length].
  split; [split; [|split; [|split; [|split]]]|split; [|split; [|split]]].
  - eapply Forall_lt_weaken; [|exact Hr]. lia.
  - lia.
  - lia.
  - intros l Hl. specialize (He l Hl). lia.
  - intros l Hl. specialize (H1 l Hl). lia.
  - apply not_elem_of_lt, Hr.
  - lia.
  - intros E. specialize (He _ E). lia.
  - intros E. specialize (H1 _ E). lia.
Qed.

Lemma _nextTick_apart m :
  allocated m → allocated (_nextTick m) ∧ pending_apart (_nextTick m).
Proof.
  intros (Hr & Hi & Hn & He & H1). rewrite _nextTick_unfold.
  apply (_beginTick_apart
           (set_records
              (fun r => retained (_maxHistory m) (r ++ [_nextState m])) m)).
  unfold allocated, records, initialState, nextState, exitState in *.
  cbn [heap _records _initialState _nextState _exitState _records_m1 set_records].
  split; [|auto].
  assert (Hall : Forall (fun l => (l < length (heap m))%nat)
                   (_records m ++ [_nextState m])).
  { apply Forall_app. split; [exact Hr|]. constructor; [exact Hn|constructor]. }
  destruct (retained_suffix (_maxHistory m) (_records m ++ [_nextState m]))
    as [k Hk].
  rewrite Hk in Hall. apply Forall_app in Hall as [_ Hall]. exact Hall.
Qed.

Lemma rewind_apart n mu m :
  allocated m →
  (∀ p, mu = Some p → (p < length (heap m))%nat) →
  allocated (rewind n mu m) ∧ pending_apart (rewind n mu m).
Proof.
  intros (Hr & Hi & Hn & He & H1) Hmu. unfold rewind.
  apply _beginTick_apart.
  unfold allocated, records, initialState, nextState, exitState in *.
  destruct m as [h e pr i ins mx ks rs rm1 t ns].
  cbn [heap _records _initialState _nextState _exitState _records_m1
       _maxHistory] in *.
  assert (Hcut : ∀ a b, Forall (fun l => (l < length h)%nat)
                          (Array.splice a b rs))
    by (intros a b; apply splice_Forall, Hr).
  destruct (Num.leb n mx && Num.isFinite n); machine_cbv;
    rewrite ?splice_everything; cbn [app]; destruct mu as [p|].
  - set (sp := Array.splice n (Num.sub (Num.of_nat (length rs)) n) rs).
    assert (Hsp : Forall (fun l => (l < length h)%nat) sp) by apply Hcut.
    destruct sp as [|x sp']; machine_cbv; rewrite length_app; cbn [length].
    + split; [constructor|]. split; [lia|]. split; [lia|].
      split; [intros l Hl; specialize (He l Hl); lia|].
      intros l [= <-]. lia.
    + split.
      { apply Forall_insert; [|lia].
        eapply Forall_lt_weaken; [|exact Hsp]. lia. }
      split; [lia|]. split; [lia|].
      split; intros l Hl; [specialize (He l Hl)|specialize (H1 l Hl)]; lia.
  - split; [apply Hcut|]. auto.
  - rewrite length_app. cbn [length].
    split; [constructor; [lia|constructor]|].
    split; [lia|]. split; [lia|].
    split; intros l Hl; [specialize (He l Hl)|specialize (H1 l Hl)]; lia.
  - split; [constructor; [exact Hi|constructor]|]. auto.
Qed.

Lemma _mutateTick_allocated p m : allocated m → allocated (_mutateTick p m).
Proof.
  intros H. unfold allocated, records, initialState, nextState, exitState in *.
  rewrite _mutateTick_heap_length.
  rewrite (_mutateTick_frame p m).
  cbn [heap _records _initialState _nextState _exitState _records_m1 set_heap].
  exact H.
Qed.

Lemma _mutateTick_apart p m : pending_apart m → pending_apart (_mutateTick p m).
Proof.
  intros H. rewrite (_mutateTick_frame p m). exact H.
Qed.

(** Staging changes two objects of the store at most. *)
Lemma _mutateTick_heap_other p m l :
  l ≠ p → l ≠ _nextState m → heap (_mutateTick p m) !! l = heap m !! l.
Proof.
  intros Hp Hn. unfold _mutateTick.
  set (m1 := foldl (fun m k => mutate_object p (delete k) m) m (_inputKeys m)).
  assert (Hn1 : _nextState m1 = _nextState m)
    by (unfold m1; rewrite strip_frame; reflexivity).
  unfold mutate_object. cbn [heap set_heap]. rewrite Hn1.
  rewrite list_lookup_alter_ne by congruence.
  unfold m1. rewrite strip_heap. apply list_lookup_alter_ne. congruence.
Qed.

End AllocFacts.

Import AllocFacts.

(** X16: the pending state is an object of its own.  On a machine whose
    references all point into the store, a commit, a rewind (with a
    mutation that is in the store, or with none), [clear] and [reset]
    leave a machine of that kind in which the pending state is a new
    object: it is no record, not the initial state and not the exit
    state.  Staging keeps both properties. *)
Theorem pending_is_apart m :
  allocated m →
  (allocated (_nextTick m) ∧ pending_apart (_nextTick m))
  ∧ (∀ n, allocated (rewind n None m) ∧ pending_apart (rewind n None m))
  ∧ (∀ n p, (p < length (heap m))%nat →
       allocated (rewind n (Some p) m) ∧ pending_apart (rewind n (Some p) m))
  ∧ (allocated (clear m) ∧ pending_apart (clear m))
  ∧ (∀ s, (∀ p, s = Some p → (p < length (heap m))%nat) →
       allocated (reset s m) ∧ pending_apart (reset s m))
  ∧ (∀ p, allocated (_mutateTick p m)
          ∧ (pending_apart m → pending_apart (_mutateTick p m))).
Proof.
  intros H.
  split; [|split; [|split; [|split; [|split]]]].
  - apply _nextTick_apart, H.
  - intros n. apply rewind_apart; [exact H|discriminate].
  - intros n p Hp. apply rewind_apart; [exact H|]. intros p' [= <-]. exact Hp.
  - apply rewind_apart; [exact H|discriminate].
  - intros s Hs. unfold reset. apply rewind_apart.
    + destruct H as (Hr & Hi & Hn & He & H1).
      split; [exact Hr|]. split; [exact Hi|]. split; [exact Hn|].
      split; [intros l Hl; discriminate Hl|exact H1].
    + intros p' [= <-]. destruct s as [p|]; cbn [default]; unfold id.
      * apply (Hs p eq_refl).
      * destruct H as (_ & Hi & _). exact Hi.
  - intros p. split; [apply _mutateTick_allocated, H|apply _mutateTick_apart].
Qed.

Lemma pending_is_apart_witness :
  let m := steps scenarioA 3 machineA in
  allocated m
  ∧ pending_apart (_nextTick m)
  ∧ pending_apart (rewind (Num.Fin 2) None m)
  ∧ pending_apart (reset None m).
Proof.
  intros m.
  assert (Hm : allocated m).
  { unfold allocated.
    split; [|split; [|split; [|split]]].
    - apply (bool_decide_unpack _). vm_compute. reflexivity.
    - vm_compute. lia.
    - vm_compute. lia.
    - intros l Hl. vm_compute in Hl. discriminate Hl.
    - intros l Hl. vm_compute in Hl. discriminate Hl. }
  destruct (pending_is_apart m Hm) as (H1 & H2 & _ & _ & H5 & _).
  split; [exact Hm|]. split; [apply H1|]. split; [apply H2|].
  apply H5. discriminate.
Defined.

(** X17: staging does not reach into the history.  When the pending
    state is an object of its own and the partial state staged is no
    record, [_mutateTick] leaves every record as it is in the store; and
    it leaves the initial state and the exit state as they are unless
    they are the very object staged. *)
Theorem staging_spares_history p m :
  pending_apart m →
  p ∉ records m →
  let m' := _mutateTick p m in
  records m' = records m
  ∧ Forall (fun l => heap m' !! l = heap m !! l) (records m)
  ∧ (p ≠ initialState m →
     heap m' !! initialState m = heap m !! initialState m)
  ∧ (∀ e, exitState m = Some e → p ≠ e → heap m' !! e = heap m !! e).
Proof.
  intros (Hr & Hi & He & _) Hp m'.
  unfold records, initialState, exitState, nextState in *.
  split; [apply _mutateTick_records|]. split; [|split].
  - apply Forall_forall. intros l Hl.
    apply _mutateTick_heap_other; intros ->; contradiction.
  - intros Hpi. apply _mutateTick_heap_other; congruence.
  - intros e Hx Hpe. apply _mutateTick_heap_other; congruence.
Qed.

Lemma staging_spares_history_witness :
  let p := fst (alloc {[ "counter" := VNumber 9 ]} (steps scenarioA 2 machineA)) in
  let m := snd (alloc {[ "counter" := VNumber 9 ]} (steps scenarioA 2 machineA)) in
  let m' := _mutateTick p m in
  counters m' = [0; 1; 2]
  ∧ Forall (fun l => heap m' !! l = heap m !! l) (records m)
  ∧ counter (deref (heap m') (nextState m')) = 9.
Proof.
  intros p m m'.
  assert (Ha : pending_apart m).
  { unfold pending_apart. split; [|split; [|split]].
    - apply (bool_decide_unpack _). vm_compute. reflexivity.
    - vm_compute. lia.
    - vm_compute. discriminate.
    - vm_compute. discriminate. }
  assert (Hp : p ∉ records m).
  { apply (bool_decide_unpack _). vm_compute. reflexivity. }
  destruct (staging_spares_history p m Ha Hp) as (_ & H2 & _).
  split; [vm_compute; reflexivity|]. split; [exact H2|].
  vm_compute. reflexivity.
Defined.

Module TickFacts.

Lemma _mutateTick_same_history m0 p m :
  same_history m0 m → same_history m0 (_mutateTick p m).
Proof. intros H. rewrite (_mutateTick_frame p m). exact H. Qed.

(** While the tick and the exit state stay, the loop runs to its end. *)
Lemma step_loop_steady m0 actions :
  exitState m0 = None →
  Forall (fun r => (∀ s m, same_history m0 m → same_history m0 (snd (r_cond r s m)))
                   ∧ (∀ s m, same_history m0 m
                             → same_history m0 (snd (r_action r s m))))
    actions →
  ∀ fired m, same_history m0 m →
    ∃ fired' m',
      step_loop (tick m0) actions fired m = Exhausted fired' m'
      ∧ same_history m0 m'.
Proof.
  intros Hx. induction 1 as [|e actions [Hc Ha] Hrest IH]; intros fired m Hm; simpl.
  - eauto.
  - pose proof Hm as (Ht & Hr & Hl & Hn & He).
    rewrite Ht, Z.eqb_refl, He, Hx. simpl.
    specialize (Hc (currentState m) m Hm).
    destruct (r_cond e (currentState m) m) as [[] m1]; simpl in Hc; [|apply IH, Hc].
    specialize (Ha (currentState m1) m1 Hc).
    destruct (r_action e (currentState m1) m1) as [[p|] m2]; simpl in Ha;
      apply IH; [apply _mutateTick_same_history|]; exact Ha.
Qed.

End TickFacts.

Import TickFacts.

(** X18: an ordinary tick.  On a machine past tick 0 with no exit state
    and a limit of 1 or more, when no condition, action or priority
    function touches the tick, the records, the limit, the pending state
    or the exit state, [step] walks all the entries and commits once: the
    tick goes up by one, the object that was pending becomes the current
    state, and the records are the old ones with it appended, trimmed to
    the limit.  The exit state is set, to that object, exactly when
    nothing fired. *)
Theorem step_commits_once program m :
  1 ≤ tick m →
  exitState m = None →
  Num.leb (Num.Fin 1) (limit m) = true →
  respects (same_history m) program →
  let m' := snd (step program m) in
  tick m' = tick m + 1
  ∧ currentState m' = nextState m
  ∧ records m' = retained (limit m) (records m ++ [nextState m])
  ∧ exitState m'
    = (if (fst (step program m) =? 0)%nat then Some (nextState m) else None).
Proof.
  intros Ht Hx Hl Hp m'. subst m'.
  assert (Hb : step_begin m = m).
  { unfold step_begin. destruct (Z.ltb_spec (tick m) 1); [lia|reflexivity]. }
  assert (H0 : same_history m m) by (repeat split).
  rewrite step_unfold. unfold actions_of, machine_at_loop, sorted_actions.
  rewrite Hb.
  destruct (resolve_invariant (same_history m) (currentState m) program m Hp H0)
    as [H1 H2].
  destruct (resolve (currentState m) program m) as [entries m1].
  cbn [fst snd] in *.
  destruct (step_loop_steady m (Array.sort by_priority entries) Hx) with
    (fired := 0%nat) (m := m1) as (fired & m2 & -> & (Et & Er & El & En & Ee)).
  { eapply Permutation_Forall; [symmetry; apply sort_perm|exact H2]. }
  { exact H1. }
  unfold tick, records, limit, nextState, exitState in *.
  assert (Hrec : _records (_nextTick m2)
                 = retained (_maxHistory m) (_records m ++ [_nextState m])).
  { rewrite _nextTick_records, Er, El, En. reflexivity. }
  assert (Hcur : currentState (_nextTick m2) = _nextState m).
  { unfold currentState, last_record. rewrite Hrec, retained_last by exact Hl.
    reflexivity. }
  cbn [step_end fst snd].
  destruct (fired =? 0)%nat;
    cbn [_tick _records _exitState set_exitState];
    rewrite ?_nextTick_tick, ?_nextTick_exitState, ?Et, ?Ee, ?Hx;
    (split; [reflexivity|]); (split; [|split; [exact Hrec|]]).
  - unfold currentState, last_record in *.
    cbn [_records _records_m1 _nextState set_exitState]. exact Hcur.
  - rewrite Hcur. reflexivity.
  - exact Hcur.
  - reflexivity.
Qed.

Lemma step_commits_once_witness :
  let m := steps scenarioA 2 machineA in
  let m' := snd (step scenarioA m) in
  tick m = 3 ∧ tick m' = 4 ∧ currentState m' = nextState m
  ∧ exitState m' = None ∧ counters m' = [0; 1; 2; 3].
Proof.
  intros m m'.
  assert (Ht : 1 ≤ tick m) by (vm_compute; discriminate).
  assert (Hx : exitState m = None) by (vm_compute; reflexivity).
  assert (Hl : Num.leb (Num.Fin 1) (limit m) = true) by (vm_compute; reflexivity).
  assert (Hp : respects (same_history m) scenarioA).
  { constructor; [|constructor].
    split; [|split]; [intros s m0 H; exact H ..|discriminate]. }
  destruct (step_commits_once scenarioA m Ht Hx Hl Hp) as (H1 & H2 & _ & H4).
  split; [vm_compute; reflexivity|].
  split; [etransitivity; [exact H1|]; vm_compute; reflexivity|].
  split; [exact H2|].
  split; [etransitivity; [exact H4|]; vm_compute; reflexivity|].
  vm_compute. reflexivity.
Defined.

(** X19: input protection for partial states that are objects of their
    own.  On a machine whose input keys are the keys of its bindings (as
    the constructor leaves them) and whose limit is 1 or more, whatever
    is staged during a tick, the state that the tick commits holds, under
    each input key, the input collected when the tick began: as long as
    no object staged is the pending state itself. *)
Theorem staged_inputs_are_kept m ps k :
  _inputKeys m = map key (_inputs m) →
  k ∈ _inputKeys m →
  Forall (fun p => p ≠ nextState (_beginTick m)) ps →
  Num.leb (Num.Fin 1) (limit m) = true →
  let m' := _nextTick (foldl (fun m p => _mutateTick p m) (_beginTick m) ps) in
  deref (heap m') (currentState m') !! k = _collectInputs m !! k
  ∧ is_Some (_collectInputs m !! k).
Proof.
  intros Hkeys Hk Hps Hl m'. split.
  - apply committed_inputs; assumption.
  - apply _collectInputs_lookup. rewrite <- Hkeys. exact Hk.
Qed.

Lemma staged_inputs_are_kept_witness :
  let p := fst (alloc {[ "counter" := VNumber 5; "sensor" := VNumber 0 ]} machineI) in
  let m := snd (alloc {[ "counter" := VNumber 5; "sensor" := VNumber 0 ]} machineI) in
  let m' := _nextTick (foldl (fun m p => _mutateTick p m) (_beginTick m) [p]) in
  deref (heap m') (currentState m') !! "sensor" = Some (VNumber 7)
  ∧ deref (heap m') (currentState m') !! "counter" = Some (VNumber 5).
Proof.
  intros p m m'.
  assert (Hkeys : _inputKeys m = map key (_inputs m)) by (vm_compute; reflexivity).
  assert (Hk : "sensor" ∈ _inputKeys m).
  { apply (bool_decide_unpack _). vm_compute. reflexivity. }
  assert (Hps : Forall (fun p => p ≠ nextState (_beginTick m)) [p]).
  { constructor; [vm_compute; lia|constructor]. }
  assert (Hl : Num.leb (Num.Fin 1) (limit m) = true) by (vm_compute; reflexivity).
  destruct (staged_inputs_are_kept m [p] "sensor" Hkeys Hk Hps Hl) as [H1 _].
  split; [etransitivity; [exact H1|]; vm_compute; reflexivity|].
  vm_compute. reflexivity.
Defined.

(** X20: a limit that is not a number.  The setter clamps with
    [limit < 1], which NaN passes: it stores NaN and trims nothing.  From
    then on no commit trims the records, and every rewind, by whatever
    number, is a full one: one record, the initial state, and tick 0. *)
Theorem set_limit_NaN m :
  let m' := set_limit Num.NaN m in
  limit m' = Num.NaN
  ∧ records m' = records m
  ∧ records (_nextTick m') = records m ++ [nextState m]
  ∧ ∀ n, records (rewind n None m') = [initialState m]
         ∧ tick (rewind n None m') = 0.
Proof.
  intros m'. subst m'. rewrite set_limit_frame.
  cbn [Num.ltb]. unfold limit, records, tick, nextState, initialState.
  cbn [_maxHistory _records set_maxHistory set_records].
  split; [reflexivity|]. split; [reflexivity|]. split.
  - rewrite _nextTick_records. unfold retained.
    cbn [_maxHistory _records _nextState set_maxHistory set_records Num.ltb].
    reflexivity.
  - intros n.
    match goal with
    | |- context [rewind n None ?x] =>
        destruct (rewind_full_frame n x) as [o ->]
    end.
    + unfold within_limit. cbn [_maxHistory set_maxHistory].
      destruct n; reflexivity.
    + split; reflexivity.
Qed.

(** X21: [rewind(0, mutate)] on a machine whose record array has no
    property [-1].  Every record is removed, and the mutated state is
    written to index [-1] of the empty array: the array stays empty, but
    that property is what [currentState] then reads.  The current state
    is a new object, the old pending state overlaid with [mutate], and
    the new pending state is that object overlaid with the inputs. *)
Theorem rewind_zero_mutate p m :
  Num.leb (Num.Fin 0) (limit m) = true →
  _records_m1 m = None →
  let m' := rewind (Num.Fin 0) (Some p) m in
  let o := deref (heap m) p ∪ deref (heap m) (nextState m) in
  records m' = []
  ∧ currentState m' = length (heap m)
  ∧ heap m' = heap m ++ [o; _collectInputs m ∪ o]
  ∧ nextState m' = S (length (heap m))
  ∧ tick m' = tick m.
Proof.
  intros Hl Hm1 m' o. unfold limit in Hl. subst m' o.
  unfold rewind, within_limit. rewrite Hl. cbn [Num.isFinite andb].
  destruct m as [h e pr i ins mx ks rs rm1 t ns].
  cbn [_records_m1] in Hm1. subst rm1.
  unfold _beginTick. machine_cbv.
  rewrite MoreArrayFacts.splice_rewind.
  unfold rewind_keeps. cbn [Z.ltb Z.compare].
  change (Z.to_nat 0) with 0%nat. rewrite !take_0. cbn [last Num.to_Z].
  machine_cbv. cbn [last].
  rewrite !Object_assign_two.
  unfold deref. rewrite lookup_app_r, Nat.sub_diag by lia.
  cbn [lookup list_lookup default]. unfold id.
  rewrite length_app, Nat.add_1_r, <- app_assoc, Z.sub_0_r.
  repeat split.
Qed.

Lemma rewind_zero_mutate_witness :
  let p := fst (alloc {[ "counter" := VNumber 9 ]} (steps scenarioA 2 machineA)) in
  let m := snd (alloc {[ "counter" := VNumber 9 ]} (steps scenarioA 2 machineA)) in
  let m' := rewind (Num.Fin 0) (Some p) m in
  records m' = [] ∧ tick m' = 3
  ∧ counter (deref (heap m') (currentState m')) = 9
  ∧ counters (_nextTick m') = [9].
Proof.
  intros p m m'.
  assert (Hl : Num.leb (Num.Fin 0) (limit m) = true) by (vm_compute; reflexivity).
  assert (Hm1 : _records_m1 m = None) by (vm_compute; reflexivity).
  destruct (rewind_zero_mutate p m Hl Hm1) as (H1 & _ & _ & _ & H5).
  split; [exact H1|].
  split; [etransitivity; [exact H5|]; vm_compute; reflexivity|].
  split; vm_compute; reflexivity.
Defined.
